(** * RingBufferOf: a shallow embedding of ringbufferof.go

    The generic ring buffer of the repository is embedded method by method.

    - Go's [int] is the 64-bit two's complement integer of the usual
      platforms, represented as a [Z] with the wrap-around of every
      arithmetic operation written out; the [uint64] discard counter wraps
      modulo 2^64.
    - A slice is a list, indexed by an [int].  An index or a slice bound out
      of range, and [make] with a negative length, are run-time panics: the
      [Panic] result of a small error monad, which ends the run.  [make]
      returns for every other length: the memory of the machine is not
      modelled.
    - The pointer receiver is passed in and returned.
    - The discard callback [func(T)] acts on an outside world [W]; the world
      is threaded through [Write] and [Overwrite], so that calls of the
      callback can be counted and ordered. *)

From stdpp Require Import base list.
From Stdlib Require Import ZArith Lia.

Local Open Scope Z_scope.

(** ** Run-time panics *)

Inductive res (A : Type) : Type :=
| Ok (a : A)
| Panic.
Arguments Ok {A} a.
Arguments Panic {A}.

Definition res_bind {A B : Type} (c : res A) (k : A -> res B) : res B :=
  match c with
  | Ok a => k a
  | Panic => Panic
  end.

Notation "'let*' x ':=' c 'in' k" := (res_bind c (fun x => k))
  (at level 10, x name, c at level 100, k at level 200).

(** ** Machine integers *)

Definition int_min : Z := -9223372036854775808.
Definition int_max : Z := 9223372036854775807.

(** Two's complement reduction of a mathematical integer to an [int]. *)
Definition wrap (z : Z) : Z := (z + 9223372036854775808) mod 18446744073709551616 - 9223372036854775808.

Definition iadd (a b : Z) : Z := wrap (a + b).
Definition isub (a b : Z) : Z := wrap (a - b).
Definition imul (a b : Z) : Z := wrap (a * b).
(** Go's [/] truncates toward zero. *)
Definition iquot (a b : Z) : Z := wrap (Z.quot a b).

(** Reduction to a [uint64]. *)
Definition u64 (z : Z) : Z := z mod 18446744073709551616.

Definition is_int (z : Z) : Prop := int_min <= z <= int_max.

(** const minBufferSize = 2 *)
Definition minBufferSize : Z := 2.

(** var ErrIsEmpty = errors.New("ringbuffer is empty"); [None] is Go's nil error. *)
Inductive error : Type := ErrIsEmpty.

Section RingBuffer.

Context {T : Type} (zero : T) {W : Type}.

(** ** Slices *)

Definition len (l : list T) : Z := Z.of_nat (length l).

(** [make([]T, n)] *)
Definition make (n : Z) : res (list T) :=
  if n <? 0 then Panic else Ok (replicate (Z.to_nat n) zero).

(** [l[i]] *)
Definition index (l : list T) (i : Z) : res T :=
  if (0 <=? i) && (i <? len l)
  then match l !! Z.to_nat i with Some x => Ok x | None => Panic end
  else Panic.

(** [l[i] = v] *)
Definition store (l : list T) (i : Z) (v : T) : res (list T) :=
  if (0 <=? i) && (i <? len l) then Ok (<[Z.to_nat i := v]> l) else Panic.

(** [l[lo:hi]] *)
Definition slice (l : list T) (lo hi : Z) : res (list T) :=
  if (0 <=? lo) && (lo <=? hi) && (hi <=? len l)
  then Ok (take (Z.to_nat (hi - lo)) (drop (Z.to_nat lo) l))
  else Panic.

(** [l[lo:]] *)
Definition slice_from (l : list T) (lo : Z) : res (list T) := slice l lo (len l).

(** [l[:hi]] *)
Definition slice_to (l : list T) (hi : Z) : res (list T) := slice l 0 hi.

(** [copy(dst, src)]: the first [min (len dst) (len src)] elements of [dst]
    are overwritten; the result is the new content of [dst]. *)
Definition copy (dst src : list T) : list T :=
  take (length dst) src ++ drop (length src) dst.

(** [copy(dst[off:], src)]: the destination is a window of [dst], which is
    updated in place. *)
Definition copy_at (dst : list T) (off : Z) (src : list T) : res (list T) :=
  if (0 <=? off) && (off <=? len dst)
  then Ok (take (Z.to_nat off) dst ++ copy (drop (Z.to_nat off) dst) src)
  else Panic.

(** ** The buffer *)

Record RingBufferOf : Type := mkRingBufferOf {
  buf : list T;
  initialSize : Z;
  size : Z;
  maxSize : Z;
  discards : Z;
  r : Z;
  w : Z;
  onDiscards : option (T -> W -> W)
}.

Definition set_buf (x : list T) (b : RingBufferOf) : RingBufferOf :=
  mkRingBufferOf x (initialSize b) (size b) (maxSize b) (discards b) (r b) (w b) (onDiscards b).
Definition set_size (x : Z) (b : RingBufferOf) : RingBufferOf :=
  mkRingBufferOf (buf b) (initialSize b) x (maxSize b) (discards b) (r b) (w b) (onDiscards b).
Definition set_maxSize (x : Z) (b : RingBufferOf) : RingBufferOf :=
  mkRingBufferOf (buf b) (initialSize b) (size b) x (discards b) (r b) (w b) (onDiscards b).
Definition set_discards (x : Z) (b : RingBufferOf) : RingBufferOf :=
  mkRingBufferOf (buf b) (initialSize b) (size b) (maxSize b) x (r b) (w b) (onDiscards b).
Definition set_r (x : Z) (b : RingBufferOf) : RingBufferOf :=
  mkRingBufferOf (buf b) (initialSize b) (size b) (maxSize b) (discards b) x (w b) (onDiscards b).
Definition set_w (x : Z) (b : RingBufferOf) : RingBufferOf :=
  mkRingBufferOf (buf b) (initialSize b) (size b) (maxSize b) (discards b) (r b) x (onDiscards b).
Definition set_onDiscards (x : option (T -> W -> W)) (b : RingBufferOf) : RingBufferOf :=
  mkRingBufferOf (buf b) (initialSize b) (size b) (maxSize b) (discards b) (r b) (w b) x.

(** ** Construction *)

(** The variadic [maxBufferSize ...int] is the list of the extra arguments. *)
Definition NewOf (initialSize0 : Z) (maxBufferSize : list Z) : res RingBufferOf :=
  let initialSize1 := if initialSize0 <? minBufferSize then minBufferSize else initialSize0 in
  let maxSize0 :=
    match maxBufferSize with
    | m :: _ => if m >=? minBufferSize then m else 0
    | [] => 0
    end in
  let* store0 := make initialSize1 in
  Ok (mkRingBufferOf store0 initialSize1 initialSize1 maxSize0 0 0 0 None).

Definition NewUnboundedOf (initialSize0 : Z) : res RingBufferOf :=
  NewOf initialSize0 [0].

Definition NewFixedOf (initialSize0 : Z) : res RingBufferOf :=
  NewOf initialSize0 [initialSize0].

(** ** Accessors *)

Definition IsEmpty (b : RingBufferOf) : bool := r b =? w b.
Definition Capacity (b : RingBufferOf) : Z := size b.
Definition MaxSize (b : RingBufferOf) : Z := maxSize b.
Definition Discards (b : RingBufferOf) : Z := discards b.

Definition Len (b : RingBufferOf) : Z :=
  if r b =? w b then 0
  else if w b >? r b then isub (w b) (r b)
  else iadd (isub (size b) (r b)) (w b).

(** ** Read side *)

Definition Read (b : RingBufferOf) : res (T * option error * RingBufferOf) :=
  if r b =? w b then Ok (zero, Some ErrIsEmpty, b)
  else
    let* v := index (buf b) (r b) in
    let b := set_r (iadd (r b) 1) b in
    let b := if r b =? size b then set_r 0 b else b in
    Ok (v, None, b).

Definition RRead (b : RingBufferOf) : res (T * option error * RingBufferOf) :=
  if r b =? w b then Ok (zero, Some ErrIsEmpty, b)
  else if w b =? 0 then
    let b := set_w (isub (size b) 1) b in
    let* v := index (buf b) (w b) in
    Ok (v, None, b)
  else
    let b := set_w (isub (w b) 1) b in
    let* v := index (buf b) (w b) in
    Ok (v, None, b).

Definition Peek (b : RingBufferOf) : res (T * option error) :=
  if r b =? w b then Ok (zero, Some ErrIsEmpty)
  else
    let* v := index (buf b) (r b) in
    Ok (v, None).

Definition RPeek (b : RingBufferOf) : res (T * option error) :=
  if r b =? w b then Ok (zero, Some ErrIsEmpty)
  else if w b =? 0 then
    let* v := index (buf b) (isub (size b) 1) in
    Ok (v, None)
  else
    let* v := index (buf b) (isub (w b) 1) in
    Ok (v, None).

(** The result starts as the nil slice and is extended with [append]. *)
Definition PeekAll (b : RingBufferOf) : res (list T) :=
  if r b =? w b then Ok []
  else if w b >? r b then
    let* s := slice (buf b) (r b) (w b) in
    Ok ([] ++ s)
  else
    let* s1 := slice_from (buf b) (r b) in
    let* s2 := slice_to (buf b) (w b) in
    Ok (([] ++ s1) ++ s2).

Definition RPeekN (n : Z) (b : RingBufferOf) : res (list T) :=
  if n <=? 0 then Ok []
  else
    let* all := PeekAll b in
    let l := len all in
    if l >=? n then slice_from all (isub l n) else Ok all.

Definition LPeekN (n : Z) (b : RingBufferOf) : res (list T) :=
  if n <=? 0 then Ok []
  else
    let* all := PeekAll b in
    if len all >=? n then slice_to all n else Ok all.

(** ** Write side *)

Definition grow (b : RingBufferOf) : res RingBufferOf :=
  let size' :=
    if size b <? 1024 then imul (size b) 2
    else iadd (size b) (iquot (size b) 4) in
  let* nb := make size' in
  let* tail := slice_from (buf b) (r b) in
  let* nb := copy_at nb 0 tail in
  let* head := slice (buf b) 0 (r b) in
  let* nb := copy_at nb (isub (size b) (r b)) head in
  let b := set_r 0 b in
  let b := set_w (size b) b in
  let b := set_size size' b in
  let b := set_buf nb b in
  Ok b.

Definition Write (v : T) (b : RingBufferOf) (ω : W) : res (RingBufferOf * W) :=
  if (maxSize b >? 0) && (Len b >=? maxSize b) then
    let b := set_discards (u64 (discards b + 1)) b in
    let ω := match onDiscards b with Some f => f v ω | None => ω end in
    Ok (b, ω)
  else
    let* nb := store (buf b) (w b) v in
    let b := set_buf nb b in
    let b := set_w (iadd (w b) 1) b in
    let b := if w b =? size b then set_w 0 b else b in
    if w b =? r b then
      let* b := grow b in
      Ok (b, ω)
    else Ok (b, ω).

Definition Overwrite (v : T) (b : RingBufferOf) (ω : W) : res (RingBufferOf * W) :=
  let b :=
    if (maxSize b >? 0) && (Len b >=? maxSize b) then
      let b := set_r (iadd (r b) 1) b in
      if r b =? size b then set_r 0 b else b
    else b in
  let* nb := store (buf b) (w b) v in
  let b := set_buf nb b in
  let b := set_w (iadd (w b) 1) b in
  let b := if w b =? size b then set_w 0 b else b in
  if w b =? r b then
    let* b := grow b in
    Ok (b, ω)
  else Ok (b, ω).

(** ** Reset, Truncate, SetMaxSize, SetOnDiscards *)

Definition Reset (b : RingBufferOf) : res RingBufferOf :=
  let b := set_r 0 b in
  let b := set_w 0 b in
  let b := set_size (initialSize b) b in
  let* nb := make (initialSize b) in
  Ok (set_buf nb b).

Definition Truncate (n : Z) (b : RingBufferOf) : res RingBufferOf :=
  if n <=? 0 then Reset b
  else if Len b <=? n then Ok b
  else if size b >? imul n 2 then
    let* data := RPeekN n b in
    let b := set_r 0 b in
    let b := set_w n b in
    let b := set_size (iadd n 1) b in
    let* nb := make (size b) in
    let b := set_buf nb b in
    Ok (set_buf (copy (buf b) data) b)
  else if w b >? r b then
    Ok (set_r (isub (isub (w b) (r b)) n) b)
  else
    let x := isub (w b) n in
    if x >=? 0 then Ok (set_r x b)
    else Ok (set_r (iadd (size b) x) b).

Definition SetMaxSize (n : Z) (b : RingBufferOf) : res (Z * RingBufferOf) :=
  if n =? 0 then
    let b := set_maxSize 0 b in
    Ok (maxSize b, b)
  else if n >=? minBufferSize then
    let b := set_maxSize n b in
    let* b := Truncate n b in
    Ok (maxSize b, b)
  else Ok (maxSize b, b).

(** A nil [fn] is ignored. *)
Definition SetOnDiscards (fn : option (T -> W -> W)) (b : RingBufferOf) : RingBufferOf :=
  match fn with
  | Some _ => set_onDiscards fn b
  | None => b
  end.

(** ** Sequences of operations *)

(** [Write] called on each value of [vs] in turn. *)
Fixpoint WriteAll (vs : list T) (b : RingBufferOf) (ω : W) : res (RingBufferOf * W) :=
  match vs with
  | [] => Ok (b, ω)
  | v :: vs' =>
      let* p := Write v b ω in
      WriteAll vs' (fst p) (snd p)
  end.

(** [Overwrite] called on each value of [vs] in turn. *)
Fixpoint OverwriteAll (vs : list T) (b : RingBufferOf) (ω : W) : res (RingBufferOf * W) :=
  match vs with
  | [] => Ok (b, ω)
  | v :: vs' =>
      let* p := Overwrite v b ω in
      OverwriteAll vs' (fst p) (snd p)
  end.

(** The loop [for { v, err := rb.Read(); if err == ErrIsEmpty { break }; ... }]
    collecting the values read.  [None] when the fuel runs out before the
    loop breaks. *)
Fixpoint drain (fuel : nat) (b : RingBufferOf) : res (option (list T * RingBufferOf)) :=
  match fuel with
  | O => Ok None
  | S fuel' =>
      let* p := Read b in
      match p with
      | (_, Some ErrIsEmpty, b') => Ok (Some ([], b'))
      | (v, None, b') =>
          let* q := drain fuel' b' in
          match q with
          | Some (vs, b'') => Ok (Some (v :: vs, b''))
          | None => Ok None
          end
      end
  end.

(** The loop [for { v, err := rb.RRead(); if err == ErrIsEmpty { break }; ... }]
    collecting the values popped from the back.  [None] when the fuel runs
    out before the loop breaks. *)
Fixpoint rdrain (fuel : nat) (b : RingBufferOf) : res (option (list T * RingBufferOf)) :=
  match fuel with
  | O => Ok None
  | S fuel' =>
      let* p := RRead b in
      match p with
      | (_, Some ErrIsEmpty, b') => Ok (Some ([], b'))
      | (v, None, b') =>
          let* q := rdrain fuel' b' in
          match q with
          | Some (vs, b'') => Ok (Some (v :: vs, b''))
          | None => Ok None
          end
      end
  end.

(** ** Well-formed buffers *)

(** The representation invariant: the backing slice has [size] slots, both
    cursors index it, and every field is in the range of its Go type. *)
Record wf (b : RingBufferOf) : Prop := mk_wf {
  wf_buf : len (buf b) = size b;
  wf_r : 0 <= r b < size b;
  wf_w : 0 <= w b < size b;
  wf_size : size b <= int_max;
  wf_initialSize : 2 <= initialSize b <= int_max;
  wf_maxSize : 0 <= maxSize b <= int_max;
  wf_discards : 0 <= discards b < 18446744073709551616
}.

(** The logical content, oldest first: what the cursors delimit in [buf]. *)
Definition contents (b : RingBufferOf) : list T :=
  if w b <? r b
  then drop (Z.to_nat (r b)) (buf b) ++ take (Z.to_nat (w b)) (buf b)
  else take (Z.to_nat (w b - r b)) (drop (Z.to_nat (r b)) (buf b)).

(** The capacity after one growth, as a mathematical integer. *)
Definition grown (c : Z) : Z := if c <? 1024 then c * 2 else c + c / 4.

(** The statements that end both [Write] and [Overwrite]: store at the write
    cursor, advance it with wrap-around, grow when it meets the read cursor. *)
Definition push (v : T) (b : RingBufferOf) : res RingBufferOf :=
  let* nb := store (buf b) (w b) v in
  let b := set_buf nb b in
  let b := set_w (iadd (w b) 1) b in
  let b := if w b =? size b then set_w 0 b else b in
  if w b =? r b then grow b else Ok b.

(** The buffer after a store at the write cursor that leaves a free slot. *)
Definition pushed (v : T) (b : RingBufferOf) : RingBufferOf :=
  mkRingBufferOf (<[Z.to_nat (w b) := v]> (buf b)) (initialSize b) (size b)
    (maxSize b) (discards b) (r b)
    (if w b + 1 =? size b then 0 else w b + 1) (onDiscards b).

(** The buffer after a store at the write cursor that fills the last slot
    and makes the store grow. *)
Definition regrown (v : T) (b : RingBufferOf) : RingBufferOf :=
  mkRingBufferOf
    (contents b ++ [v] ++ replicate (Z.to_nat (grown (size b) - size b)) zero)
    (initialSize b) (grown (size b)) (maxSize b) (discards b) 0 (size b)
    (onDiscards b).

(** The buffer after the read cursor advanced by one slot, with wrap-around. *)
Definition popped (b : RingBufferOf) : RingBufferOf :=
  set_r (if r b + 1 =? size b then 0 else r b + 1) b.

(** The buffer after the write cursor stepped back by one slot, with
    wrap-around. *)
Definition unpushed (b : RingBufferOf) : RingBufferOf :=
  set_w (if w b =? 0 then size b - 1 else w b - 1) b.

(** The test that opens [Write] and [Overwrite]: the buffer is bounded and
    holds [maxSize] elements or more. *)
Definition at_max (b : RingBufferOf) : bool :=
  (maxSize b >? 0) && (Len b >=? maxSize b).

(** The call [r.onDiscards(v)] guarded by [r.onDiscards != nil]. *)
Definition notify (b : RingBufferOf) (v : T) (ω : W) : W :=
  match onDiscards b with
  | Some f => f v ω
  | None => ω
  end.

(** The public operations, as labels of the transition relation. *)
Inductive op : Type :=
| OpRead | OpRRead | OpPeek | OpRPeek | OpPeekAll
| OpRPeekN (n : Z) | OpLPeekN (n : Z)
| OpWrite (v : T) | OpOverwrite (v : T)
| OpTruncate (n : Z) | OpReset
| OpSetMaxSize (n : Z) | OpSetOnDiscards (fn : option (T -> W -> W)).

(** One public call that returns normally, on the buffer and the world. *)
Definition exec (o : op) (b : RingBufferOf) (ω : W) : res (RingBufferOf * W) :=
  match o with
  | OpRead => let* p := Read b in Ok (snd p, ω)
  | OpRRead => let* p := RRead b in Ok (snd p, ω)
  | OpPeek => let* _ := Peek b in Ok (b, ω)
  | OpRPeek => let* _ := RPeek b in Ok (b, ω)
  | OpPeekAll => let* _ := PeekAll b in Ok (b, ω)
  | OpRPeekN n => let* _ := RPeekN n b in Ok (b, ω)
  | OpLPeekN n => let* _ := LPeekN n b in Ok (b, ω)
  | OpWrite v => Write v b ω
  | OpOverwrite v => Overwrite v b ω
  | OpTruncate n => let* b' := Truncate n b in Ok (b', ω)
  | OpReset => let* b' := Reset b in Ok (b', ω)
  | OpSetMaxSize n => let* p := SetMaxSize n b in Ok (snd p, ω)
  | OpSetOnDiscards fn => Ok (SetOnDiscards fn b, ω)
  end.

(** A client program: public calls one after the other. *)
Fixpoint run (os : list op) (b : RingBufferOf) (ω : W) : res (RingBufferOf * W) :=
  match os with
  | [] => Ok (b, ω)
  | o :: os' =>
      let* p := exec o b ω in
      run os' (fst p) (snd p)
  end.

(** The states a client can reach: a constructor, then public calls with
    arguments of type [int]. *)
Definition op_args_int (o : op) : Prop :=
  match o with
  | OpRPeekN n | OpLPeekN n | OpTruncate n | OpSetMaxSize n => is_int n
  | _ => True
  end.

Inductive reachable : RingBufferOf -> Prop :=
| reach_new (n : Z) (ms : list Z) (b : RingBufferOf) :
    is_int n -> Forall is_int ms -> NewOf n ms = Ok b -> reachable b
| reach_step (o : op) (b b' : RingBufferOf) (ω ω' : W) :
    reachable b -> op_args_int o -> exec o b ω = Ok (b', ω') -> reachable b'.

(** ** Integers and slices in range *)

Lemma wrap_small (z : Z) : is_int z -> wrap z = z.
Proof.
  unfold is_int, int_min, int_max, wrap. intros Hz.
  rewrite Z.mod_small by lia. lia.
Qed.

Lemma wrap_is_int (z : Z) : is_int (wrap z).
Proof.
  unfold is_int, int_min, int_max, wrap.
  pose proof (Z.mod_pos_bound (z + 9223372036854775808) 18446744073709551616).
  lia.
Qed.

Ltac int_range := unfold is_int, int_min, int_max in *; lia.

Ltac unwrap :=
  unfold iadd, isub, imul, iquot in *;
  repeat match goal with
         | |- context [wrap ?z] => rewrite (wrap_small z) by int_range
         | H : context [wrap ?z] |- _ => rewrite (wrap_small z) in H by int_range
         end.

Ltac splits := repeat match goal with |- _ /\ _ => split end.

Ltac rb_simpl :=
  cbn [res_bind set_buf set_size set_maxSize set_discards set_r set_w
       set_onDiscards buf initialSize size maxSize discards r w onDiscards
       fst snd] in *.

Lemma make_ok (n : Z) : 0 <= n -> make n = Ok (replicate (Z.to_nat n) zero).
Proof.
  intros Hn. unfold make. destruct (Z.ltb_spec n 0); [lia | reflexivity].
Qed.

Lemma index_ok (l : list T) (i : Z) :
  0 <= i < len l -> exists x, l !! Z.to_nat i = Some x /\ index l i = Ok x.
Proof.
  unfold index, len. intros Hi.
  destruct (Z.leb_spec 0 i); [| lia].
  destruct (Z.ltb_spec i (Z.of_nat (length l))); [| lia]. simpl.
  destruct (lookup_lt_is_Some_2 l (Z.to_nat i)) as [x Hx]; [lia |].
  exists x. rewrite Hx. auto.
Qed.

Lemma store_ok (l : list T) (i : Z) (v : T) :
  0 <= i < len l -> store l i v = Ok (<[Z.to_nat i := v]> l).
Proof.
  unfold store, len. intros Hi.
  destruct (Z.leb_spec 0 i); [| lia].
  destruct (Z.ltb_spec i (Z.of_nat (length l))); [reflexivity | lia].
Qed.

Lemma slice_ok (l : list T) (lo hi : Z) :
  0 <= lo <= hi -> hi <= len l ->
  slice l lo hi = Ok (take (Z.to_nat (hi - lo)) (drop (Z.to_nat lo) l)).
Proof.
  unfold slice. intros Hlo Hhi.
  destruct (Z.leb_spec 0 lo); [| lia].
  destruct (Z.leb_spec lo hi); [| lia].
  destruct (Z.leb_spec hi (len l)); [reflexivity | lia].
Qed.

Lemma slice_from_ok (l : list T) (lo : Z) :
  0 <= lo <= len l -> slice_from l lo = Ok (drop (Z.to_nat lo) l).
Proof.
  intros Hlo. unfold slice_from. rewrite slice_ok by lia.
  f_equal. apply take_ge. rewrite length_drop. unfold len in *. lia.
Qed.

Lemma slice_to_ok (l : list T) (hi : Z) :
  0 <= hi <= len l -> slice_to l hi = Ok (take (Z.to_nat hi) l).
Proof.
  intros Hhi. unfold slice_to. rewrite slice_ok by lia.
  rewrite Z.sub_0_r. reflexivity.
Qed.

Lemma copy_at_ok (dst : list T) (off : Z) (src : list T) :
  0 <= off <= len dst ->
  copy_at dst off src = Ok (take (Z.to_nat off) dst ++ copy (drop (Z.to_nat off) dst) src).
Proof.
  unfold copy_at. intros Hoff.
  destruct (Z.leb_spec 0 off); [| lia].
  destruct (Z.leb_spec off (len dst)); [reflexivity | lia].
Qed.

(** Copying a source that fits: it replaces a prefix of the destination. *)
Lemma copy_fits (dst src : list T) :
  (length src <= length dst)%nat -> copy dst src = src ++ drop (length src) dst.
Proof.
  intros Hle. unfold copy. rewrite take_ge by lia. reflexivity.
Qed.

(** ** Reading the logical content *)

Lemma PeekAll_contents (b : RingBufferOf) : wf b -> PeekAll b = Ok (contents b).
Proof.
  intros [Hb Hr Hw _ _ _ _]. unfold PeekAll, contents.
  destruct (Z.eqb_spec (r b) (w b)) as [E | E].
  - rewrite E, Z.ltb_irrefl, Z.sub_diag. reflexivity.
  - destruct (Z.gtb_spec (w b) (r b)).
    + destruct (Z.ltb_spec (w b) (r b)); [lia |].
      rewrite slice_ok by lia. reflexivity.
    + destruct (Z.ltb_spec (w b) (r b)); [| lia].
      rewrite slice_from_ok, slice_to_ok by lia. reflexivity.
Qed.

Lemma Len_wf (b : RingBufferOf) :
  wf b -> Len b = if w b <? r b then size b - r b + w b else w b - r b.
Proof.
  intros [Hb Hr Hw Hs _ _ _]. unfold Len.
  destruct (Z.eqb_spec (r b) (w b)) as [E | E].
  - rewrite E, Z.ltb_irrefl. lia.
  - destruct (Z.gtb_spec (w b) (r b)); destruct (Z.ltb_spec (w b) (r b)); try lia.
    + unwrap. reflexivity.
    + unwrap. reflexivity.
Qed.

Lemma Len_contents (b : RingBufferOf) : wf b -> Len b = len (contents b).
Proof.
  intros Hwf. rewrite Len_wf by assumption.
  destruct Hwf as [Hb Hr Hw _ _ _ _]. unfold contents, len in *.
  destruct (Z.ltb_spec (w b) (r b)).
  - rewrite length_app, length_drop, length_take. lia.
  - rewrite length_take, length_drop. lia.
Qed.

Lemma Len_range (b : RingBufferOf) : wf b -> 0 <= Len b < size b.
Proof.
  intros Hwf. rewrite Len_wf by assumption.
  destruct Hwf as [Hb Hr Hw _ _ _ _].
  destruct (Z.ltb_spec (w b) (r b)); lia.
Qed.

Lemma Len_mod (b : RingBufferOf) :
  wf b -> Len b = (w b - r b + size b) mod size b.
Proof.
  intros Hwf. rewrite Len_wf by assumption.
  destruct Hwf as [Hb Hr Hw _ _ _ _].
  destruct (Z.ltb_spec (w b) (r b)).
  - rewrite Z.mod_small by lia. lia.
  - replace (w b - r b + size b) with (w b - r b + 1 * size b) by lia.
    rewrite Z.mod_add by lia. rewrite Z.mod_small by lia. reflexivity.
Qed.

Lemma Len_zero_iff (b : RingBufferOf) : wf b -> (Len b = 0 <-> r b = w b).
Proof.
  intros Hwf. rewrite Len_wf by assumption.
  destruct Hwf as [Hb Hr Hw _ _ _ _].
  destruct (Z.ltb_spec (w b) (r b)); lia.
Qed.

(** ** Growth *)

Lemma grown_ge (c : Z) : 0 <= c -> c <= grown c.
Proof.
  intros Hc. unfold grown. destruct (Z.ltb_spec c 1024); [lia |].
  pose proof (Z.div_pos c 4). lia.
Qed.

Lemma grown_gt (c : Z) : 1 <= c -> c < grown c.
Proof.
  intros Hc. unfold grown. destruct (Z.ltb_spec c 1024); [lia |].
  assert (256 <= c / 4) by (apply Z.div_le_lower_bound; lia). lia.
Qed.

(** The size computed by [grow] is [grown] as long as it fits an [int]. *)
Lemma grow_size_fits (c : Z) :
  0 <= c <= int_max -> grown c <= int_max ->
  (if c <? 1024 then imul c 2 else iadd c (iquot c 4)) = grown c.
Proof.
  intros Hc Hg. unfold grown in *.
  destruct (Z.ltb_spec c 1024).
  - unwrap. reflexivity.
  - assert (Hq : c ÷ 4 = c / 4) by (apply Z.quot_div_nonneg; lia).
    pose proof (Z.div_pos c 4).
    unfold iadd, iquot. rewrite Hq.
    rewrite (wrap_small (c / 4)) by int_range.
    rewrite wrap_small by int_range. reflexivity.
Qed.

(** When it does not fit, the wrapped size is negative and [make] panics. *)
Lemma grow_size_overflow (c : Z) :
  0 <= c <= int_max -> int_max < grown c ->
  (if c <? 1024 then imul c 2 else iadd c (iquot c 4)) < 0.
Proof.
  intros Hc Hg. unfold grown in *.
  destruct (Z.ltb_spec c 1024); [int_range |].
  assert (Hq : c ÷ 4 = c / 4) by (apply Z.quot_div_nonneg; lia).
  assert (0 <= c / 4 <= c) by (split; [apply Z.div_pos | apply Z.div_le_upper_bound]; lia).
  unfold iadd, iquot. rewrite Hq.
  rewrite (wrap_small (c / 4)) by int_range.
  unfold wrap.
  replace (c + c / 4 + 9223372036854775808)
    with (c + c / 4 - 9223372036854775808 + 1 * 18446744073709551616) by lia.
  rewrite Z.mod_add by lia. rewrite Z.mod_small by int_range. int_range.
Qed.

Lemma grow_ok (b : RingBufferOf) :
  len (buf b) = size b -> 0 <= r b < size b -> size b <= int_max ->
  grown (size b) <= int_max ->
  grow b =
  Ok (mkRingBufferOf
        (drop (Z.to_nat (r b)) (buf b) ++ take (Z.to_nat (r b)) (buf b)
           ++ replicate (Z.to_nat (grown (size b) - size b)) zero)
        (initialSize b) (grown (size b)) (maxSize b) (discards b) 0 (size b)
        (onDiscards b)).
Proof.
  intros Hb Hr Hs Hg.
  pose proof (grown_ge (size b)) as Hge.
  unfold grow. rewrite grow_size_fits by lia.
  rewrite make_ok by lia. simpl.
  rewrite slice_from_ok by lia. simpl.
  unfold len in *.
  rewrite copy_at_ok by (unfold len; lia). simpl.
  rewrite slice_ok by (unfold len; lia). simpl.
  change (Z.to_nat 0) with O. rewrite !drop_0, Z.sub_0_r.
  rewrite copy_fits by (rewrite length_drop, length_replicate; lia).
  rewrite length_drop, drop_replicate.
  unwrap.
  rewrite copy_at_ok
    by (unfold len; rewrite length_app, length_drop, length_replicate; lia).
  simpl.
  rewrite take_app_length' by (rewrite length_drop; lia).
  rewrite drop_app_length' by (rewrite length_drop; lia).
  rewrite copy_fits by (rewrite length_take, length_replicate; lia).
  rewrite length_take, drop_replicate.
  unfold set_buf, set_size, set_w, set_r. simpl.
  repeat f_equal. lia.
Qed.

Lemma grow_overflow (b : RingBufferOf) :
  0 <= size b <= int_max -> int_max < grown (size b) -> grow b = Panic.
Proof.
  intros Hs Hg. unfold grow, make.
  pose proof (grow_size_overflow (size b) Hs Hg) as Hneg.
  destruct (Z.ltb_spec (if size b <? 1024 then imul (size b) 2
                        else iadd (size b) (iquot (size b) 4)) 0); [reflexivity | lia].
Qed.

(** ** Storing at the write cursor *)

Lemma Write_push (v : T) (b : RingBufferOf) (ω : W) :
  Write v b ω =
  if (maxSize b >? 0) && (Len b >=? maxSize b)
  then Ok (set_discards (u64 (discards b + 1)) b,
           match onDiscards b with Some f => f v ω | None => ω end)
  else let* b' := push v b in Ok (b', ω).
Proof.
  unfold Write, push.
  destruct ((maxSize b >? 0) && (Len b >=? maxSize b)); [reflexivity |].
  destruct (store (buf b) (w b) v) as [nb |]; simpl; [| reflexivity].
  match goal with |- context [if ?c then _ else _] => destruct c end; reflexivity.
Qed.

Lemma Overwrite_push (v : T) (b : RingBufferOf) (ω : W) :
  Overwrite v b ω =
  let* b' :=
    push v (if (maxSize b >? 0) && (Len b >=? maxSize b)
            then (if iadd (r b) 1 =? size b then set_r 0 (set_r (iadd (r b) 1) b)
                  else set_r (iadd (r b) 1) b)
            else b) in
  Ok (b', ω).
Proof.
  unfold Overwrite, push. simpl.
  match goal with
  | |- context [store (buf ?x) (w ?x) v] =>
      destruct (store (buf x) (w x) v) as [nb |]; simpl; [| reflexivity]
  end.
  match goal with |- context [if ?c then grow _ else _] => destruct c end; reflexivity.
Qed.

Lemma take_snoc_insert (l : list T) (i : nat) (v : T) :
  (i < length l)%nat -> take (S i) (<[i := v]> l) = take i l ++ [v].
Proof.
  intros Hi.
  rewrite (take_S_r _ _ v) by (apply list_lookup_insert_eq; assumption).
  rewrite take_insert_ge by lia. reflexivity.
Qed.

Lemma window_snoc_insert (l : list T) (i j : nat) (v : T) :
  (j <= i < length l)%nat ->
  take (S i - j) (drop j (<[i := v]> l)) = take (i - j) (drop j l) ++ [v].
Proof.
  intros Hi. rewrite drop_insert_ge by lia.
  replace (S i - j)%nat with (S (i - j)) by lia.
  apply take_snoc_insert. rewrite length_drop. lia.
Qed.

Lemma contents_pushed (v : T) (b : RingBufferOf) :
  wf b -> Len b + 1 < size b -> contents (pushed v b) = contents b ++ [v].
Proof.
  intros Hwf Hroom. rewrite Len_wf in Hroom by assumption.
  destruct Hwf as [Hb Hr Hw _ _ _ _]. unfold len in Hb.
  unfold contents, pushed. simpl.
  destruct (Z.ltb_spec (w b) (r b)).
  - destruct (Z.eqb_spec (w b + 1) (size b)); [lia |].
    destruct (Z.ltb_spec (w b + 1) (r b)); [| lia].
    rewrite drop_insert_lt by lia.
    replace (Z.to_nat (w b + 1)) with (S (Z.to_nat (w b))) by lia.
    rewrite take_snoc_insert by lia. rewrite app_assoc. reflexivity.
  - destruct (Z.eqb_spec (w b + 1) (size b)).
    + destruct (Z.ltb_spec 0 (r b)); [| lia].
      change (Z.to_nat 0) with O. rewrite take_0, app_nil_r.
      rewrite <- (take_ge (drop _ (<[_ := v]> (buf b))) (S (Z.to_nat (w b)) - Z.to_nat (r b)))
        by (rewrite length_drop, length_insert; lia).
      rewrite window_snoc_insert by lia.
      do 2 f_equal. lia.
    + destruct (Z.ltb_spec (w b + 1) (r b)); [lia |].
      replace (Z.to_nat (w b + 1 - r b)) with (S (Z.to_nat (w b)) - Z.to_nat (r b))%nat by lia.
      rewrite window_snoc_insert by lia.
      do 2 f_equal. lia.
Qed.

Lemma wf_pushed (v : T) (b : RingBufferOf) : wf b -> wf (pushed v b).
Proof.
  intros [Hb Hr Hw Hs Hi Hm Hd].
  split; simpl; try assumption.
  - unfold len in *. rewrite length_insert. assumption.
  - destruct (Z.eqb_spec (w b + 1) (size b)); lia.
Qed.

Lemma push_room (v : T) (b : RingBufferOf) :
  wf b -> Len b + 1 < size b -> push v b = Ok (pushed v b).
Proof.
  intros Hwf Hroom. rewrite Len_wf in Hroom by assumption.
  destruct Hwf as [Hb Hr Hw Hs _ _ _].
  unfold push. rewrite store_ok by lia. rb_simpl. unwrap.
  unfold pushed.
  destruct (Z.eqb_spec (w b + 1) (size b)); rb_simpl.
  - destruct (Z.ltb_spec (w b) (r b)); [lia |].
    destruct (Z.eqb_spec 0 (r b)); [lia | reflexivity].
  - destruct (Z.ltb_spec (w b) (r b));
      (destruct (Z.eqb_spec (w b + 1) (r b)); [lia | reflexivity]).
Qed.

(** A full store read from the read cursor round to itself is the old
    content followed by the value just stored. *)
Lemma full_rotation (v : T) (b : RingBufferOf) :
  wf b -> Len b + 1 = size b ->
  drop (Z.to_nat (r b)) (<[Z.to_nat (w b) := v]> (buf b))
    ++ take (Z.to_nat (r b)) (<[Z.to_nat (w b) := v]> (buf b))
  = contents b ++ [v].
Proof.
  intros Hwf Hfull. rewrite Len_wf in Hfull by assumption.
  destruct Hwf as [Hb Hr Hw _ _ _ _]. unfold len in Hb.
  unfold contents.
  destruct (Z.ltb_spec (w b) (r b)).
  - rewrite drop_insert_lt by lia.
    replace (Z.to_nat (r b)) with (S (Z.to_nat (w b))) at 2 by lia.
    rewrite take_snoc_insert by lia. rewrite app_assoc. reflexivity.
  - replace (Z.to_nat (r b)) with O by lia.
    rewrite take_0, app_nil_r, !drop_0.
    rewrite <- (take_ge (<[_ := v]> (buf b)) (S (Z.to_nat (w b))))
      by (rewrite length_insert; lia).
    rewrite take_snoc_insert by lia.
    do 2 f_equal. lia.
Qed.

Lemma push_full (v : T) (b : RingBufferOf) :
  wf b -> Len b + 1 = size b -> grown (size b) <= int_max ->
  push v b = Ok (regrown v b).
Proof.
  intros Hwf Hfull Hg.
  pose proof (full_rotation v b Hwf Hfull) as Hrot.
  rewrite Len_wf in Hfull by assumption.
  destruct Hwf as [Hb Hr Hw Hs _ _ _].
  unfold push. rewrite store_ok by lia. rb_simpl. unwrap.
  destruct (Z.eqb_spec (w b + 1) (size b)); rb_simpl.
  - destruct (Z.eqb_spec 0 (r b)); [| destruct (Z.ltb_spec (w b) (r b)); lia].
    rewrite grow_ok
      by (rb_simpl; unfold len in *; rewrite ?length_insert; lia).
    rb_simpl. unfold regrown.
    rewrite (app_assoc (contents b) [v]), <- Hrot, <- app_assoc. reflexivity.
  - destruct (Z.eqb_spec (w b + 1) (r b)); [| destruct (Z.ltb_spec (w b) (r b)); lia].
    rewrite grow_ok
      by (rb_simpl; unfold len in *; rewrite ?length_insert; lia).
    rb_simpl. unfold regrown.
    rewrite (app_assoc (contents b) [v]), <- Hrot, <- app_assoc. reflexivity.
Qed.

Lemma push_overflow (v : T) (b : RingBufferOf) :
  wf b -> Len b + 1 = size b -> int_max < grown (size b) -> push v b = Panic.
Proof.
  intros Hwf Hfull Hg.
  rewrite Len_wf in Hfull by assumption.
  destruct Hwf as [Hb Hr Hw Hs _ _ _].
  unfold push. rewrite store_ok by lia. rb_simpl. unwrap.
  destruct (Z.eqb_spec (w b + 1) (size b)); rb_simpl.
  - destruct (Z.eqb_spec 0 (r b)); [| destruct (Z.ltb_spec (w b) (r b)); lia].
    apply grow_overflow; rb_simpl; lia.
  - destruct (Z.eqb_spec (w b + 1) (r b)); [| destruct (Z.ltb_spec (w b) (r b)); lia].
    apply grow_overflow; rb_simpl; lia.
Qed.

Lemma contents_regrown (v : T) (b : RingBufferOf) :
  wf b -> Len b + 1 = size b -> contents (regrown v b) = contents b ++ [v].
Proof.
  intros Hwf Hfull. rewrite Len_contents in Hfull by assumption.
  destruct Hwf as [Hb Hr Hw _ _ _ _]. unfold len in *.
  unfold contents at 1, regrown. rb_simpl.
  destruct (Z.ltb_spec (size b) 0); [lia |].
  change (Z.to_nat 0) with O. rewrite drop_0, app_assoc.
  apply take_app_length'. rewrite length_app. simpl. lia.
Qed.

Lemma wf_regrown (v : T) (b : RingBufferOf) :
  wf b -> Len b + 1 = size b -> grown (size b) <= int_max -> wf (regrown v b).
Proof.
  intros Hwf Hfull Hg. rewrite Len_contents in Hfull by assumption.
  destruct Hwf as [Hb Hr Hw Hs Hi Hm Hd].
  pose proof (grown_gt (size b)).
  split; unfold regrown; rb_simpl; try assumption; try lia.
  unfold len in *. rewrite !length_app, length_replicate. simpl. lia.
Qed.

(** ** Advancing the read cursor *)

Lemma wf_popped (b : RingBufferOf) : wf b -> wf (popped b).
Proof.
  intros [Hb Hr Hw Hs Hi Hm Hd].
  split; unfold popped; rb_simpl; try assumption.
  destruct (Z.eqb_spec (r b + 1) (size b)); lia.
Qed.

Lemma contents_popped (b : RingBufferOf) (v : T) :
  wf b -> r b <> w b -> buf b !! Z.to_nat (r b) = Some v ->
  contents b = v :: contents (popped b).
Proof.
  intros [Hb Hr Hw _ _ _ _] Hne Hv. unfold len in Hb.
  unfold contents, popped. rb_simpl.
  rewrite (drop_S _ _ _ Hv).
  destruct (Z.ltb_spec (w b) (r b)).
  - destruct (Z.eqb_spec (r b + 1) (size b)).
    + destruct (Z.ltb_spec (w b) 0); [lia |].
      rewrite (drop_ge (buf b) (S _)) by lia.
      change (Z.to_nat 0) with O. rewrite drop_0, Z.sub_0_r. reflexivity.
    + destruct (Z.ltb_spec (w b) (r b + 1)); [| lia].
      replace (Z.to_nat (r b + 1)) with (S (Z.to_nat (r b))) by lia.
      reflexivity.
  - destruct (Z.eqb_spec (r b + 1) (size b)); [lia |].
    destruct (Z.ltb_spec (w b) (r b + 1)); [lia |].
    replace (Z.to_nat (w b - r b)) with (S (Z.to_nat (w b - (r b + 1)))) by lia.
    replace (Z.to_nat (r b + 1)) with (S (Z.to_nat (r b))) by lia.
    reflexivity.
Qed.

Lemma Len_popped (b : RingBufferOf) :
  wf b -> r b <> w b -> Len (popped b) = Len b - 1.
Proof.
  intros Hwf Hne.
  rewrite (Len_wf (popped b)) by (apply wf_popped; assumption).
  rewrite Len_wf by assumption.
  destruct Hwf as [Hb Hr Hw _ _ _ _]. unfold popped. rb_simpl.
  destruct (Z.eqb_spec (r b + 1) (size b));
    destruct (Z.ltb_spec (w b) (r b));
    match goal with |- context [?x <? ?y] => destruct (Z.ltb_spec x y) end; lia.
Qed.

Lemma Read_nonempty (b : RingBufferOf) :
  wf b -> r b <> w b ->
  exists v, Read b = Ok (v, None, popped b) /\ contents b = v :: contents (popped b).
Proof.
  intros Hwf Hne.
  destruct (index_ok (buf b) (r b)) as (v & Hv & Hix).
  { destruct Hwf. lia. }
  exists v. split; [| apply contents_popped; assumption].
  destruct Hwf as [Hb Hr Hw Hs _ _ _].
  unfold Read. destruct (Z.eqb_spec (r b) (w b)); [contradiction |].
  rewrite Hix. rb_simpl. unwrap. unfold popped.
  destruct (Z.eqb_spec (r b + 1) (size b)); reflexivity.
Qed.

Lemma Read_empty (b : RingBufferOf) :
  r b = w b -> Read b = Ok (zero, Some ErrIsEmpty, b).
Proof.
  intros E. unfold Read. rewrite E, Z.eqb_refl. reflexivity.
Qed.

Lemma Peek_nonempty (b : RingBufferOf) :
  wf b -> r b <> w b ->
  exists v, Peek b = Ok (v, None) /\ contents b = v :: contents (popped b).
Proof.
  intros Hwf Hne.
  destruct (index_ok (buf b) (r b)) as (v & Hv & Hix).
  { destruct Hwf. lia. }
  exists v. split; [| apply contents_popped; assumption].
  unfold Peek. destruct (Z.eqb_spec (r b) (w b)); [contradiction |].
  rewrite Hix. reflexivity.
Qed.

(** ** Stepping the write cursor back *)

Lemma wf_unpushed (b : RingBufferOf) : wf b -> wf (unpushed b).
Proof.
  intros [Hb Hr Hw Hs Hi Hm Hd].
  split; unfold unpushed; rb_simpl; try assumption.
  destruct (Z.eqb_spec (w b) 0); lia.
Qed.

Lemma contents_unpushed (b : RingBufferOf) (v : T) :
  wf b -> r b <> w b -> buf b !! Z.to_nat (w (unpushed b)) = Some v ->
  contents b = contents (unpushed b) ++ [v].
Proof.
  intros [Hb Hr Hw _ _ _ _] Hne. unfold len in Hb.
  unfold contents, unpushed. rb_simpl.
  destruct (Z.eqb_spec (w b) 0) as [E0 | E0]; intros Hv.
  - destruct (Z.ltb_spec (w b) (r b)); [| lia].
    destruct (Z.ltb_spec (size b - 1) (r b)); [lia |].
    rewrite E0. change (Z.to_nat 0) with O. rewrite take_0, app_nil_r.
    rewrite <- (take_S_r _ _ v).
    + symmetry. apply take_ge. rewrite length_drop. lia.
    + rewrite lookup_drop. rewrite <- Hv. f_equal. lia.
  - destruct (Z.ltb_spec (w b) (r b)).
    + destruct (Z.ltb_spec (w b - 1) (r b)); [| lia].
      rewrite <- app_assoc. f_equal.
      replace (Z.to_nat (w b)) with (S (Z.to_nat (w b - 1))) by lia.
      apply take_S_r. assumption.
    + destruct (Z.ltb_spec (w b - 1) (r b)); [lia |].
      replace (Z.to_nat (w b - r b)) with (S (Z.to_nat (w b - 1 - r b))) by lia.
      apply take_S_r. rewrite lookup_drop. rewrite <- Hv. f_equal. lia.
Qed.

Lemma RRead_nonempty (b : RingBufferOf) :
  wf b -> r b <> w b ->
  exists v, RRead b = Ok (v, None, unpushed b) /\ contents b = contents (unpushed b) ++ [v].
Proof.
  intros Hwf Hne.
  destruct (index_ok (buf b) (w (unpushed b))) as (v & Hv & Hix).
  { destruct (wf_unpushed b Hwf) as [_ _ Hw' _ _ _ _]. destruct Hwf.
    unfold unpushed in *. rb_simpl. lia. }
  exists v. split; [| apply contents_unpushed; assumption].
  destruct Hwf as [Hb Hr Hw Hs _ _ _].
  unfold RRead. destruct (Z.eqb_spec (r b) (w b)); [contradiction |].
  unfold unpushed in *. rb_simpl.
  destruct (Z.eqb_spec (w b) 0); rb_simpl; unwrap; rewrite Hix; reflexivity.
Qed.

Lemma RPeek_nonempty (b : RingBufferOf) :
  wf b -> r b <> w b ->
  exists v, RPeek b = Ok (v, None) /\ contents b = contents (unpushed b) ++ [v].
Proof.
  intros Hwf Hne.
  destruct (index_ok (buf b) (w (unpushed b))) as (v & Hv & Hix).
  { destruct (wf_unpushed b Hwf) as [_ _ Hw' _ _ _ _]. destruct Hwf.
    unfold unpushed in *. rb_simpl. lia. }
  exists v. split; [| apply contents_unpushed; assumption].
  destruct Hwf as [Hb Hr Hw Hs _ _ _].
  unfold RPeek. destruct (Z.eqb_spec (r b) (w b)); [contradiction |].
  unfold unpushed in *. rb_simpl.
  destruct (Z.eqb_spec (w b) 0); rb_simpl; unwrap; rewrite Hix; reflexivity.
Qed.

(** ** Construction *)

Lemma NewOf_ok (n : Z) (ms : list Z) :
  NewOf n ms =
  Ok (mkRingBufferOf (replicate (Z.to_nat (Z.max n minBufferSize)) zero)
        (Z.max n minBufferSize) (Z.max n minBufferSize)
        (match ms with
         | m :: _ => if minBufferSize <=? m then m else 0
         | [] => 0
         end) 0 0 0 None).
Proof.
  unfold NewOf, minBufferSize.
  assert (Hmax : (if n <? 2 then 2 else n) = Z.max n 2)
    by (destruct (Z.ltb_spec n 2); lia).
  rewrite Hmax. rewrite make_ok by lia. rb_simpl.
  destruct ms as [| m ms']; [reflexivity |].
  replace (m >=? 2) with (2 <=? m) by (rewrite Z.geb_leb; reflexivity).
  reflexivity.
Qed.

Lemma wf_NewOf (n : Z) (ms : list Z) (b : RingBufferOf) :
  is_int n -> Forall is_int ms -> NewOf n ms = Ok b -> wf b.
Proof.
  intros Hn Hms. rewrite NewOf_ok. intros [= <-].
  unfold minBufferSize.
  split; rb_simpl; unfold len; rewrite ?length_replicate; try int_range.
  destruct Hms as [| m ms' Hm _]; [int_range |].
  destruct (Z.leb_spec 2 m); int_range.
Qed.

(** C8 (amended).  [NewOf] always returns an empty buffer whose capacity is
    the initial size clamped up to [minBufferSize], and whose maximum size is
    the first extra argument when that is at least [minBufferSize], 0
    (unbounded) otherwise.  [NewFixedOf n] goes through the same guard: its
    maximum size is [n] when [n] is at least [minBufferSize], and 0
    otherwise. *)
Theorem NewOf_construction (n : Z) (ms : list Z) :
  (exists b,
      NewOf n ms = Ok b /\ r b = 0 /\ w b = 0 /\ IsEmpty b = true /\
      Len b = 0 /\ PeekAll b = Ok [] /\
      Capacity b = Z.max n minBufferSize /\ len (buf b) = Capacity b /\
      MaxSize b = match ms with
                  | m :: _ => if minBufferSize <=? m then m else 0
                  | [] => 0
                  end) /\
  (exists b,
      NewFixedOf n = Ok b /\ IsEmpty b = true /\ Len b = 0 /\
      Capacity b = Z.max n minBufferSize /\
      MaxSize b = if minBufferSize <=? n then n else 0).
Proof.
  split.
  - eexists. split; [apply NewOf_ok |].
    unfold IsEmpty, Len, PeekAll, Capacity, MaxSize, len. rb_simpl.
    rewrite length_replicate. unfold minBufferSize.
    repeat split; lia.
  - eexists. split; [apply NewOf_ok |].
    unfold IsEmpty, Len, Capacity, MaxSize. rb_simpl. repeat split.
Qed.

(** ** Empty reads *)

(** C6.  On a well-formed buffer, [Read], [RRead], [Peek] and [RPeek] return
    [ErrIsEmpty] with the zero value exactly when the cursors are equal,
    which is when [Len] is 0, and such a call leaves the buffer as it was;
    on a non-empty buffer each returns a stored value and a nil error: the
    oldest element for [Read] and [Peek], the newest for [RRead] and
    [RPeek]. *)
Theorem empty_read_error (b : RingBufferOf) :
  wf b ->
  (Len b = 0 <-> r b = w b) /\
  (r b = w b ->
     Read b = Ok (zero, Some ErrIsEmpty, b) /\
     RRead b = Ok (zero, Some ErrIsEmpty, b) /\
     Peek b = Ok (zero, Some ErrIsEmpty) /\
     RPeek b = Ok (zero, Some ErrIsEmpty)) /\
  (r b <> w b ->
     (exists v b', Read b = Ok (v, None, b') /\ PeekAll b = Ok (v :: contents b')) /\
     (exists v b', RRead b = Ok (v, None, b') /\ PeekAll b = Ok (contents b' ++ [v])) /\
     (exists v, Peek b = Ok (v, None) /\ head (contents b) = Some v) /\
     (exists v, RPeek b = Ok (v, None) /\ last (contents b) = Some v)).
Proof.
  intros Hwf. split; [apply Len_zero_iff; assumption |]. split.
  - intros E. unfold Read, RRead, Peek, RPeek.
    rewrite E, Z.eqb_refl. repeat split.
  - intros Hne. rewrite PeekAll_contents by assumption. repeat split.
    + destruct (Read_nonempty b Hwf Hne) as (v & Hrd & Hc).
      exists v, (popped b). rewrite Hc. auto.
    + destruct (RRead_nonempty b Hwf Hne) as (v & Hrd & Hc).
      exists v, (unpushed b). rewrite Hc. auto.
    + destruct (Peek_nonempty b Hwf Hne) as (v & Hpk & Hc).
      exists v. rewrite Hc. auto.
    + destruct (RPeek_nonempty b Hwf Hne) as (v & Hpk & Hc).
      exists v. rewrite Hc, last_snoc. auto.
Qed.

(** ** Overwrite on an unbounded buffer *)

(** C10.  With [maxSize] 0, [Overwrite v] and [Write v] give the same
    result on every buffer: the same buffer, or the same panic; and the
    world the callback acts on is returned as it was. *)
Theorem Overwrite_Write_unbounded (v : T) (b : RingBufferOf) (ω : W) :
  maxSize b = 0 ->
  Overwrite v b ω = Write v b ω /\
  (forall b' ω', Write v b ω = Ok (b', ω') -> ω' = ω /\ discards b' = discards b) /\
  (forall b' ω', Overwrite v b ω = Ok (b', ω') -> ω' = ω /\ discards b' = discards b).
Proof.
  intros Hm.
  assert (Hw : Write v b ω = let* b' := push v b in Ok (b', ω)).
  { rewrite Write_push, Hm. reflexivity. }
  assert (Ho : Overwrite v b ω = let* b' := push v b in Ok (b', ω)).
  { rewrite Overwrite_push, Hm. reflexivity. }
  assert (Hd : forall b', push v b = Ok b' -> discards b' = discards b).
  { unfold push. destruct (store (buf b) (w b) v) as [nb |]; [| discriminate].
    rb_simpl.
    match goal with |- context [if ?c then grow ?x else _] =>
      destruct c; [unfold grow | intros b' [= <-]; destruct (_ =? _); reflexivity]
    end.
    intros b'.
    repeat match goal with
           | |- context [res_bind ?c _] => destruct c; rb_simpl; [| discriminate]
           end.
    intros [= <-]. rb_simpl. destruct (_ =? _); reflexivity. }
  rewrite Ho, Hw. split; [reflexivity |].
  split; intros b' ω'; destruct (push v b) as [b1 |]; rb_simpl;
    try discriminate; intros [= <- <-]; auto.
Qed.

(** ** Write and Overwrite, case by case *)

Lemma at_max_true (b : RingBufferOf) :
  at_max b = true <-> 0 < maxSize b <= Len b.
Proof.
  unfold at_max. rewrite andb_true_iff, Z.gtb_ltb, Z.ltb_lt, Z.geb_leb, Z.leb_le. lia.
Qed.

Lemma at_max_false (b : RingBufferOf) :
  at_max b = false <-> maxSize b <= 0 \/ Len b < maxSize b.
Proof.
  unfold at_max. rewrite andb_false_iff, Z.gtb_ltb, Z.ltb_ge, Z.geb_leb, Z.leb_gt. lia.
Qed.

Lemma push_cases (v : T) (b : RingBufferOf) :
  wf b ->
  push v b = if w (pushed v b) =? r b then grow (pushed v b) else Ok (pushed v b).
Proof.
  intros [Hb Hr Hw Hs _ _ _].
  unfold push. rewrite store_ok by lia. rb_simpl. unwrap.
  unfold pushed. rb_simpl.
  destruct (Z.eqb_spec (w b + 1) (size b)); reflexivity.
Qed.

Lemma collision_iff (v : T) (b : RingBufferOf) :
  wf b -> (w (pushed v b) = r b <-> Len b + 1 = size b).
Proof.
  intros Hwf. rewrite Len_wf by assumption.
  destruct Hwf as [Hb Hr Hw _ _ _ _]. unfold pushed. rb_simpl.
  destruct (Z.eqb_spec (w b + 1) (size b)); destruct (Z.ltb_spec (w b) (r b)); lia.
Qed.

Lemma Write_discard (v : T) (b : RingBufferOf) (ω : W) :
  at_max b = true ->
  Write v b ω =
  Ok (set_discards (u64 (discards b + 1)) b,
      match onDiscards b with Some f => f v ω | None => ω end).
Proof.
  intros Hc. rewrite Write_push. fold (at_max b). rewrite Hc. reflexivity.
Qed.

Lemma Write_store (v : T) (b : RingBufferOf) (ω : W) :
  at_max b = false -> Write v b ω = let* b' := push v b in Ok (b', ω).
Proof.
  intros Hc. rewrite Write_push. fold (at_max b). rewrite Hc. reflexivity.
Qed.

Lemma Overwrite_below (v : T) (b : RingBufferOf) (ω : W) :
  at_max b = false -> Overwrite v b ω = let* b' := push v b in Ok (b', ω).
Proof.
  intros Hc. rewrite Overwrite_push. fold (at_max b). rewrite Hc. reflexivity.
Qed.

Lemma Overwrite_at_max (v : T) (b : RingBufferOf) (ω : W) :
  wf b -> at_max b = true -> Overwrite v b ω = Ok (pushed v (popped b), ω).
Proof.
  intros Hwf Hc. rewrite Overwrite_push. fold (at_max b). rewrite Hc.
  apply at_max_true in Hc.
  assert (Hne : r b <> w b).
  { intros E. apply Len_zero_iff in E; [lia | assumption]. }
  assert (Hpop : (if iadd (r b) 1 =? size b then set_r 0 (set_r (iadd (r b) 1) b)
                  else set_r (iadd (r b) 1) b) = popped b).
  { destruct Hwf as [Hb Hr Hw Hs _ _ _]. unwrap. unfold popped.
    destruct (Z.eqb_spec (r b + 1) (size b)); reflexivity. }
  rewrite Hpop.
  rewrite push_room; [reflexivity | apply wf_popped; assumption |].
  rewrite Len_popped by assumption.
  pose proof (Len_range b Hwf). unfold popped. rb_simpl. lia.
Qed.

(** ** Growth schedule *)

(** C9.  A growth that returns gives the new store exactly twice the old
    capacity below 1024 and the old capacity plus a quarter of it (integer
    division) from 1024 on, and it returns whenever that size fits an [int].
    [Write] and [Overwrite] reach [grow] only when the advanced write cursor
    meets the read cursor; otherwise the capacity is the one before. *)
Theorem growth_schedule (v : T) (b : RingBufferOf) (ω : W) :
  wf b ->
  (forall b', grow b = Ok b' ->
     Capacity b' = if Capacity b <? 1024 then Capacity b * 2
                   else Capacity b + Capacity b / 4) /\
  (grown (Capacity b) <= int_max -> exists b', grow b = Ok b') /\
  (forall b' ω', Write v b ω = Ok (b', ω') ->
     if at_max b then Capacity b' = Capacity b
     else if w (pushed v b) =? r b
          then grow (pushed v b) = Ok b' /\ Len b + 1 = Capacity b /\
               Capacity b' = grown (Capacity b)
          else b' = pushed v b /\ Capacity b' = Capacity b) /\
  (forall b' ω', Overwrite v b ω = Ok (b', ω') ->
     if at_max b then b' = pushed v (popped b) /\ Capacity b' = Capacity b
     else if w (pushed v b) =? r b
          then grow (pushed v b) = Ok b' /\ Len b + 1 = Capacity b /\
               Capacity b' = grown (Capacity b)
          else b' = pushed v b /\ Capacity b' = Capacity b).
Proof.
  intros Hwf.
  assert (Hgrow : forall b0 b', wf b0 -> grow b0 = Ok b' ->
            size b' = grown (size b0)).
  { intros b0 b' [Hb Hr Hw Hs _ _ _] Hg.
    destruct (Z.le_gt_cases (grown (size b0)) int_max) as [Hfit | Hover].
    - rewrite grow_ok in Hg by assumption. injection Hg as <-. reflexivity.
    - rewrite grow_overflow in Hg by lia. discriminate. }
  assert (Hpush : forall b', push v b = Ok b' ->
            if w (pushed v b) =? r b
            then grow (pushed v b) = Ok b' /\ Len b + 1 = Capacity b /\
                 Capacity b' = grown (Capacity b)
            else b' = pushed v b /\ Capacity b' = Capacity b).
  { intros b'. rewrite push_cases by assumption.
    destruct (Z.eqb_spec (w (pushed v b)) (r b)) as [E | E].
    - intros Hg. split; [assumption |].
      split; [apply (collision_iff v); assumption |].
      apply (Hgrow (pushed v b)); [apply wf_pushed |]; assumption.
    - intros [= <-]. split; reflexivity. }
  unfold Capacity in *. repeat split.
  - intros b' Hg. apply Hgrow; assumption.
  - intros Hfit. destruct Hwf as [Hb Hr Hw Hs _ _ _].
    eexists. apply grow_ok; assumption.
  - intros b' ω'. destruct (at_max b) eqn:Hc.
    + rewrite Write_discard by assumption. intros [= <- _]. reflexivity.
    + rewrite Write_store by assumption.
      destruct (push v b) as [b1 |] eqn:Hp; rb_simpl; [| discriminate].
      intros [= <- _]. apply Hpush. reflexivity.
  - intros b' ω'. destruct (at_max b) eqn:Hc.
    + rewrite Overwrite_at_max by assumption. intros [= <- _].
      split; reflexivity.
    + rewrite Overwrite_below by assumption.
      destruct (push v b) as [b1 |] eqn:Hp; rb_simpl; [| discriminate].
      intros [= <- _]. apply Hpush. reflexivity.
Qed.

(** ** The representation invariant is preserved *)

Lemma wf_grow (b b' : RingBufferOf) : wf b -> grow b = Ok b' -> wf b'.
Proof.
  intros [Hb Hr Hw Hs Hi Hm Hd] Hg.
  destruct (Z.le_gt_cases (grown (size b)) int_max) as [Hfit | Hover].
  - rewrite grow_ok in Hg by assumption. injection Hg as <-.
    pose proof (grown_gt (size b)).
    split; rb_simpl; try assumption; try lia.
    unfold len in *. rewrite !length_app, length_drop, length_take, length_replicate. lia.
  - rewrite grow_overflow in Hg by lia. discriminate.
Qed.

Lemma wf_push (v : T) (b b' : RingBufferOf) : wf b -> push v b = Ok b' -> wf b'.
Proof.
  intros Hwf. rewrite push_cases by assumption.
  destruct (w (pushed v b) =? r b).
  - apply wf_grow, wf_pushed, Hwf.
  - intros [= <-]. apply wf_pushed, Hwf.
Qed.

Lemma wf_set_discards (d : Z) (b : RingBufferOf) :
  wf b -> wf (set_discards (u64 d) b).
Proof.
  intros [Hb Hr Hw Hs Hi Hm Hd]. split; rb_simpl; try assumption.
  unfold u64. apply Z.mod_pos_bound. lia.
Qed.

Lemma wf_Write (v : T) (b b' : RingBufferOf) (ω ω' : W) :
  wf b -> Write v b ω = Ok (b', ω') -> wf b'.
Proof.
  intros Hwf. destruct (at_max b) eqn:Hc.
  - rewrite Write_discard by assumption. intros [= <- _].
    apply wf_set_discards, Hwf.
  - rewrite Write_store by assumption.
    destruct (push v b) as [b1 |] eqn:Hp; rb_simpl; [| discriminate].
    intros [= <- _]. apply (wf_push v b); assumption.
Qed.

Lemma wf_Overwrite (v : T) (b b' : RingBufferOf) (ω ω' : W) :
  wf b -> Overwrite v b ω = Ok (b', ω') -> wf b'.
Proof.
  intros Hwf. destruct (at_max b) eqn:Hc.
  - rewrite Overwrite_at_max by assumption. intros [= <- _].
    apply wf_pushed, wf_popped, Hwf.
  - rewrite Overwrite_below by assumption.
    destruct (push v b) as [b1 |] eqn:Hp; rb_simpl; [| discriminate].
    intros [= <- _]. apply (wf_push v b); assumption.
Qed.

Lemma wf_Read (b b' : RingBufferOf) (v : T) (e : option error) :
  wf b -> Read b = Ok (v, e, b') -> wf b'.
Proof.
  intros Hwf. destruct (Z.eq_dec (r b) (w b)) as [E | E].
  - rewrite Read_empty by assumption. intros [= _ _ <-]. assumption.
  - destruct (Read_nonempty b Hwf E) as (v0 & -> & _).
    intros [= _ _ <-]. apply wf_popped, Hwf.
Qed.

Lemma wf_RRead (b b' : RingBufferOf) (v : T) (e : option error) :
  wf b -> RRead b = Ok (v, e, b') -> wf b'.
Proof.
  intros Hwf. destruct (Z.eq_dec (r b) (w b)) as [E | E].
  - unfold RRead. rewrite E, Z.eqb_refl. intros [= _ _ <-]. assumption.
  - destruct (RRead_nonempty b Hwf E) as (v0 & -> & _).
    intros [= _ _ <-]. apply wf_unpushed, Hwf.
Qed.

Lemma Reset_ok (b : RingBufferOf) :
  0 <= initialSize b ->
  Reset b =
  Ok (mkRingBufferOf (replicate (Z.to_nat (initialSize b)) zero) (initialSize b)
        (initialSize b) (maxSize b) (discards b) 0 0 (onDiscards b)).
Proof.
  intros Hi. unfold Reset. rb_simpl. rewrite make_ok by assumption. reflexivity.
Qed.

Lemma wf_Reset (b b' : RingBufferOf) : wf b -> Reset b = Ok b' -> wf b'.
Proof.
  intros [Hb Hr Hw Hs Hi Hm Hd]. rewrite Reset_ok by lia. intros [= <-].
  split; rb_simpl; try assumption; try lia.
  unfold len. rewrite length_replicate. lia.
Qed.

Lemma length_copy (dst src : list T) : length (copy dst src) = length dst.
Proof.
  unfold copy. rewrite length_app, length_take, length_drop. lia.
Qed.

Lemma RPeekN_ok (n : Z) (b : RingBufferOf) :
  wf b -> 0 < n <= Len b ->
  RPeekN n b = Ok (drop (Z.to_nat (Len b - n)) (contents b)).
Proof.
  intros Hwf Hn. pose proof (Len_range b Hwf) as HL.
  pose proof (Len_contents b Hwf) as HLc.
  pose proof (wf_size b Hwf) as Hs.
  unfold RPeekN. destruct (Z.leb_spec n 0); [lia |].
  rewrite PeekAll_contents by assumption. rb_simpl.
  rewrite <- HLc.
  destruct (Z.geb_spec (Len b) n); [| lia].
  unwrap. apply slice_from_ok. lia.
Qed.

(** ** Truncate, branch by branch *)

Lemma Truncate_noop (n : Z) (b : RingBufferOf) :
  0 < n -> Len b <= n -> Truncate n b = Ok b.
Proof.
  intros Hn HL. unfold Truncate.
  destruct (Z.leb_spec n 0); [lia |].
  destruct (Z.leb_spec (Len b) n); [reflexivity | lia].
Qed.

Lemma Truncate_realloc (n : Z) (b : RingBufferOf) :
  wf b -> 0 < n < Len b -> (size b >? imul n 2) = true ->
  Truncate n b =
  Ok (mkRingBufferOf (drop (Z.to_nat (Len b - n)) (contents b) ++ [zero])
        (initialSize b) (n + 1) (maxSize b) (discards b) 0 n (onDiscards b)).
Proof.
  intros Hwf Hn Hbig. pose proof (Len_range b Hwf) as HL.
  pose proof (Len_contents b Hwf) as HLc.
  pose proof (wf_size b Hwf) as Hs.
  unfold Truncate.
  destruct (Z.leb_spec n 0); [lia |].
  destruct (Z.leb_spec (Len b) n); [lia |].
  rewrite Hbig, RPeekN_ok by (assumption || lia).
  rb_simpl. unwrap. rewrite make_ok by lia. rb_simpl.
  assert (Hlen : length (drop (Z.to_nat (Len b - n)) (contents b)) = Z.to_nat n).
  { rewrite length_drop. unfold len in HLc. lia. }
  rewrite copy_fits by (rewrite length_replicate; lia).
  rewrite Hlen, drop_replicate.
  replace (Z.to_nat (n + 1) - Z.to_nat n)%nat with 1%nat by lia.
  reflexivity.
Qed.

Lemma Truncate_flat (n : Z) (b : RingBufferOf) :
  wf b -> 0 < n < Len b -> (size b >? imul n 2) = false -> r b < w b ->
  Truncate n b = Ok (set_r (w b - r b - n) b).
Proof.
  intros Hwf Hn Hsmall Hflat. pose proof (Len_range b Hwf) as HL.
  pose proof (wf_size b Hwf) as Hs.
  unfold Truncate.
  destruct (Z.leb_spec n 0); [lia |].
  destruct (Z.leb_spec (Len b) n); [lia |].
  rewrite Hsmall.
  destruct Hwf as [Hb Hr Hw _ _ _ _].
  destruct (Z.gtb_spec (w b) (r b)); [| lia].
  unwrap. reflexivity.
Qed.

Lemma Truncate_wrapped (n : Z) (b : RingBufferOf) :
  wf b -> 0 < n < Len b -> (size b >? imul n 2) = false -> w b < r b ->
  Truncate n b =
  Ok (set_r (if w b - n >=? 0 then w b - n else size b + (w b - n)) b).
Proof.
  intros Hwf Hn Hsmall Hwrapped. pose proof (Len_range b Hwf) as HL.
  pose proof (wf_size b Hwf) as Hs.
  unfold Truncate.
  destruct (Z.leb_spec n 0); [lia |].
  destruct (Z.leb_spec (Len b) n); [lia |].
  rewrite Hsmall.
  destruct Hwf as [Hb Hr Hw _ _ _ _].
  destruct (Z.gtb_spec (w b) (r b)); [lia |].
  rb_simpl. unwrap.
  destruct (Z.geb_spec (w b - n) 0); [reflexivity |].
  unwrap. reflexivity.
Qed.

Lemma wf_Truncate (n : Z) (b b' : RingBufferOf) :
  wf b -> Truncate n b = Ok b' -> wf b'.
Proof.
  intros Hwf.
  destruct (Z.le_gt_cases n 0) as [Hn | Hn].
  { unfold Truncate. destruct (Z.leb_spec n 0); [| lia]. apply wf_Reset, Hwf. }
  destruct (Z.le_gt_cases (Len b) n) as [HL | HL].
  { rewrite Truncate_noop by lia. intros [= <-]. assumption. }
  pose proof (Len_range b Hwf) as HR.
  pose proof (Len_contents b Hwf) as HLc.
  pose proof (Len_wf b Hwf) as HLw.
  destruct (size b >? imul n 2) eqn:Hbig.
  - rewrite Truncate_realloc by (assumption || lia). intros [= <-].
    destruct Hwf as [Hb Hr Hw Hs Hi Hm Hd].
    split; rb_simpl; try assumption; try lia.
    unfold len in *. rewrite length_app, length_drop. simpl. lia.
  - destruct (Z.lt_trichotomy (r b) (w b)) as [Hlt | [Heq | Hgt]].
    + rewrite Truncate_flat by (assumption || lia). intros [= <-].
      destruct (Z.ltb_spec (w b) (r b)); [lia |].
      destruct Hwf as [Hb Hr Hw Hs Hi Hm Hd].
      split; rb_simpl; try assumption; lia.
    + apply Len_zero_iff in Heq; [lia | assumption].
    + rewrite Truncate_wrapped by (assumption || lia). intros [= <-].
      destruct (Z.ltb_spec (w b) (r b)); [| lia].
      destruct Hwf as [Hb Hr Hw Hs Hi Hm Hd].
      split; rb_simpl; try assumption.
      destruct (Z.geb_spec (w b - n) 0); lia.
Qed.

Lemma wf_set_maxSize (n : Z) (b : RingBufferOf) :
  0 <= n <= int_max -> wf b -> wf (set_maxSize n b).
Proof.
  intros Hn [Hb Hr Hw Hs Hi Hm Hd]. split; rb_simpl; assumption.
Qed.

Lemma wf_SetMaxSize (n m : Z) (b b' : RingBufferOf) :
  is_int n -> wf b -> SetMaxSize n b = Ok (m, b') -> wf b'.
Proof.
  intros Hn Hwf. unfold SetMaxSize, minBufferSize.
  destruct (Z.eqb_spec n 0).
  - intros [= _ <-]. apply wf_set_maxSize; [int_range | assumption].
  - destruct (Z.geb_spec n 2).
    + rb_simpl.
      destruct (Truncate n (set_maxSize n b)) as [b1 |] eqn:Ht; rb_simpl; [| discriminate].
      intros [= _ <-]. apply (wf_Truncate n (set_maxSize n b)); [| assumption].
      apply wf_set_maxSize; [int_range | assumption].
    + intros [= _ <-]. assumption.
Qed.

Lemma wf_SetOnDiscards (fn : option (T -> W -> W)) (b : RingBufferOf) :
  wf b -> wf (SetOnDiscards fn b).
Proof.
  intros Hwf. destruct fn; [| assumption].
  destruct Hwf as [Hb Hr Hw Hs Hi Hm Hd]. split; assumption.
Qed.

Lemma wf_exec (o : op) (b b' : RingBufferOf) (ω ω' : W) :
  op_args_int o -> wf b -> exec o b ω = Ok (b', ω') -> wf b'.
Proof.
  intros Ho Hwf. destruct o; simpl in *.
  - destruct (Read b) as [[[v e] b1] |] eqn:E; rb_simpl; [| discriminate].
    intros [= <- _]. apply (wf_Read b b1 v e); assumption.
  - destruct (RRead b) as [[[v e] b1] |] eqn:E; rb_simpl; [| discriminate].
    intros [= <- _]. apply (wf_RRead b b1 v e); assumption.
  - destruct (Peek b); rb_simpl; [| discriminate]. intros [= <- _]. assumption.
  - destruct (RPeek b); rb_simpl; [| discriminate]. intros [= <- _]. assumption.
  - destruct (PeekAll b); rb_simpl; [| discriminate]. intros [= <- _]. assumption.
  - destruct (RPeekN n b); rb_simpl; [| discriminate]. intros [= <- _]. assumption.
  - destruct (LPeekN n b); rb_simpl; [| discriminate]. intros [= <- _]. assumption.
  - apply wf_Write, Hwf.
  - apply wf_Overwrite, Hwf.
  - destruct (Truncate n b) as [b1 |] eqn:E; rb_simpl; [| discriminate].
    intros [= <- _]. apply (wf_Truncate n b); assumption.
  - destruct (Reset b) as [b1 |] eqn:E; rb_simpl; [| discriminate].
    intros [= <- _]. apply (wf_Reset b); assumption.
  - destruct (SetMaxSize n b) as [[m b1] |] eqn:E; rb_simpl; [| discriminate].
    intros [= <- _]. apply (wf_SetMaxSize n m b); assumption.
  - intros [= <- _]. apply wf_SetOnDiscards, Hwf.
Qed.

Lemma reachable_wf (b : RingBufferOf) : reachable b -> wf b.
Proof.
  induction 1 as [n ms b Hn Hms Hnew | o b b' ω ω' _ IH Ho Hex].
  - apply (wf_NewOf n ms); assumption.
  - apply (wf_exec o b b' ω ω'); assumption.
Qed.

(** ** Cursors and capacity of a well-formed buffer *)

Lemma wf_cursors (b : RingBufferOf) :
  wf b ->
  0 <= r b < Capacity b /\
  0 <= w b < Capacity b /\
  len (buf b) = Capacity b /\
  Len b = (w b - r b + Capacity b) mod Capacity b /\
  Capacity b >= Len b + 1 /\
  (r b = w b <-> Len b = 0) /\
  (r b = w b <-> PeekAll b = Ok []) /\
  (exists l, PeekAll b = Ok l /\ len l = Len b).
Proof.
  intros Hwf.
  pose proof (Len_range b Hwf) as HL.
  pose proof (Len_contents b Hwf) as HLc.
  pose proof (Len_zero_iff b Hwf) as Hz.
  unfold Capacity. rewrite PeekAll_contents by assumption.
  destruct Hwf as [Hb Hr Hw Hs Hi Hm Hd].
  repeat split; try assumption; try lia.
  - apply Len_mod. split; assumption.
  - intros E. f_equal. apply nil_length_inv. unfold len in HLc. lia.
  - intros [= E]. rewrite E in HLc. unfold len in HLc. simpl in HLc. lia.
  - exists (contents b). split; [reflexivity | lia].
Qed.

(** ** Sequences of writes *)

Lemma grown_le_double (c : Z) : 0 <= c -> grown c <= 2 * c.
Proof.
  intros Hc. unfold grown. destruct (Z.ltb_spec c 1024); [lia |].
  assert (c / 4 <= c) by (apply Z.div_le_upper_bound; lia). lia.
Qed.

(** A store below the bound appends to the content, growing if it must. *)
Lemma push_appends (v : T) (b : RingBufferOf) :
  wf b -> Len b + 1 < size b \/ grown (size b) <= int_max ->
  exists b',
    push v b = Ok b' /\ wf b' /\ contents b' = contents b ++ [v] /\
    (Len b + 1 < size b -> b' = pushed v b) /\
    (Len b + 1 = size b -> b' = regrown v b) /\
    size b <= size b' /\ maxSize b' = maxSize b /\ discards b' = discards b /\
    onDiscards b' = onDiscards b /\ initialSize b' = initialSize b.
Proof.
  intros Hwf Hfit. pose proof (Len_range b Hwf) as HL.
  destruct (Z.eq_dec (Len b + 1) (size b)) as [Hfull | Hroom].
  - assert (Hg : grown (size b) <= int_max) by (destruct Hfit; [lia | assumption]).
    exists (regrown v b). split; [apply push_full; assumption |].
    split; [apply wf_regrown; assumption |].
    split; [apply contents_regrown; assumption |].
    pose proof (grown_ge (size b)).
    splits; unfold regrown; rb_simpl; try reflexivity; lia.
  - exists (pushed v b). split; [apply push_room; [assumption | lia] |].
    split; [apply wf_pushed; assumption |].
    split; [apply contents_pushed; [assumption | lia] |].
    splits; unfold pushed; rb_simpl; try reflexivity; lia.
Qed.

(** The only way a store fails is the allocation of the grown slice. *)
Lemma push_total (v : T) (b : RingBufferOf) :
  wf b ->
  (push v b = Panic /\ Len b + 1 = size b /\ int_max < grown (size b)) \/
  (exists b',
    push v b = Ok b' /\ wf b' /\ contents b' = contents b ++ [v] /\
    (Len b + 1 < size b -> b' = pushed v b) /\
    (Len b + 1 = size b -> b' = regrown v b) /\
    size b <= size b' /\ maxSize b' = maxSize b /\ discards b' = discards b /\
    onDiscards b' = onDiscards b /\ initialSize b' = initialSize b).
Proof.
  intros Hwf. pose proof (Len_range b Hwf) as HL.
  destruct (Z.eq_dec (Len b + 1) (size b)) as [Hfull | Hroom].
  - destruct (Z.le_gt_cases (grown (size b)) int_max) as [Hfit | Hover].
    + right. apply push_appends; [assumption | right; assumption].
    + left. split; [apply push_overflow; assumption || lia | split; [assumption | lia]].
  - right. apply push_appends; [assumption | left; lia].
Qed.

Lemma WriteAll_app (xs ys : list T) (b : RingBufferOf) (ω : W) :
  WriteAll (xs ++ ys) b ω =
  let* p := WriteAll xs b ω in WriteAll ys (fst p) (snd p).
Proof.
  revert b ω. induction xs as [| x xs IH]; intros b ω; simpl; [reflexivity |].
  destruct (Write x b ω) as [[b1 ω1] |]; rb_simpl; [apply IH | reflexivity].
Qed.

Lemma at_max_unbounded (b : RingBufferOf) (k : Z) :
  wf b -> maxSize b = 0 \/ Len b + k <= maxSize b -> 0 < k -> at_max b = false.
Proof.
  intros Hwf Hm Hk. apply at_max_false. lia.
Qed.

(** Writes that stay below the capacity: no growth, no discard. *)
Lemma WriteAll_room (vs : list T) (b : RingBufferOf) (ω : W) :
  wf b -> maxSize b = 0 \/ Len b + len vs <= maxSize b ->
  Len b + len vs < size b ->
  exists b',
    WriteAll vs b ω = Ok (b', ω) /\ wf b' /\ contents b' = contents b ++ vs /\
    size b' = size b /\ maxSize b' = maxSize b /\ discards b' = discards b /\
    onDiscards b' = onDiscards b.
Proof.
  revert b. induction vs as [| v vs IH]; intros b Hwf Hm Hroom.
  - exists b. rewrite app_nil_r. splits; try reflexivity. assumption.
  - unfold len in *. simpl length in *.
    destruct (push_appends v b Hwf) as (b1 & Hp & Hwf1 & Hc1 & Hb1 & _ & _ & Hm1 & Hd1 & Ho1 & _);
      [lia |].
    assert (HL1 : Len b1 = Len b + 1).
    { rewrite (Len_contents b1), (Len_contents b), Hc1 by assumption.
      unfold len. rewrite length_app. simpl. lia. }
    assert (Hs1 : size b1 = size b) by (rewrite Hb1 by lia; reflexivity).
    destruct (IH b1 Hwf1) as (b' & Hw & Hwf' & Hc' & Hs' & Hm' & Hd' & Ho');
      [rewrite Hm1; lia | lia |].
    exists b'. simpl. rewrite Write_store by (apply (at_max_unbounded b (Z.pos (Pos.of_succ_nat (length vs)))); [assumption | lia | lia]).
    rewrite Hp. rb_simpl. rewrite Hw, Hc', Hc1, <- app_assoc.
    splits; first [assumption | reflexivity | congruence].
Qed.

(** Writes below the bound, with the growths they need: they append, unless
    a grown slice cannot be allocated. *)
Lemma WriteAll_below (vs : list T) (b : RingBufferOf) (ω : W) :
  wf b -> maxSize b = 0 \/ Len b + len vs <= maxSize b ->
  (WriteAll vs b ω = Panic /\ int_max < 2 * (Len b + len vs)) \/
  (exists b',
    WriteAll vs b ω = Ok (b', ω) /\ wf b' /\ contents b' = contents b ++ vs /\
    size b <= size b' /\ maxSize b' = maxSize b /\ discards b' = discards b /\
    onDiscards b' = onDiscards b).
Proof.
  revert b. induction vs as [| v vs IH]; intros b Hwf Hm.
  - right. exists b. rewrite app_nil_r.
    splits; first [assumption | reflexivity | lia].
  - unfold len in *. simpl length in *.
    pose proof (Len_range b Hwf) as HL.
    pose proof (grown_le_double (size b)) as Hg.
    assert (Hc : at_max b = false) by (apply at_max_false; lia).
    simpl. rewrite Write_store by assumption.
    destruct (push_total v b Hwf)
      as [(Hp & Hfull & Hover)
         | (b1 & Hp & Hwf1 & Hc1 & _ & _ & Hs1 & Hm1 & Hd1 & Ho1 & _)].
    + left. rewrite Hp. split; [reflexivity | lia].
    + assert (HL1 : Len b1 = Len b + 1).
      { rewrite (Len_contents b1), (Len_contents b), Hc1 by assumption.
        unfold len. rewrite length_app. simpl. lia. }
      rewrite Hp. rb_simpl.
      destruct (IH b1 Hwf1) as [(Hw & Hover) | (b' & Hw & Hwf' & Hc' & Hs' & Hm' & Hd' & Ho')];
        [rewrite Hm1; lia | |].
      * left. split; [assumption | lia].
      * right. exists b'. rewrite Hw, Hc', Hc1, <- app_assoc.
        splits; first [assumption | reflexivity | congruence | lia].
Qed.

Lemma u64_add_l (a c : Z) : u64 (u64 a + c) = u64 (a + c).
Proof. unfold u64. apply Zplus_mod_idemp_l. Qed.

Lemma u64_small (a : Z) : 0 <= a < 18446744073709551616 -> u64 a = a.
Proof. intros Ha. unfold u64. apply Z.mod_small. assumption. Qed.

(** Writes at the bound: each one is counted and reported, nothing else
    changes. *)
Lemma WriteAll_discard (vs : list T) (b : RingBufferOf) (ω : W) :
  wf b -> at_max b = true ->
  WriteAll vs b ω =
  Ok (set_discards (u64 (discards b + len vs)) b,
      fold_left (fun ω0 v => notify b v ω0) vs ω).
Proof.
  intros Hwf Hc. assert (Hd := wf_discards b Hwf). clear Hwf.
  revert b ω Hd Hc. induction vs as [| v vs IH]; intros b ω Hd Hc.
  - simpl. unfold len. simpl. rewrite Z.add_0_r, u64_small by assumption.
    destruct b; reflexivity.
  - simpl. rewrite Write_discard by assumption. rb_simpl.
    rewrite IH.
    + rb_simpl. unfold set_discards at 1 2 3. rb_simpl. unfold len.
      rewrite u64_add_l. f_equal. f_equal.
      unfold set_discards. f_equal. f_equal. simpl length. lia.
    + rb_simpl. unfold u64. apply Z.mod_pos_bound. lia.
    + exact Hc.
Qed.

Lemma contents_empty (b : RingBufferOf) : wf b -> r b = w b -> contents b = [].
Proof.
  intros Hwf E. apply nil_length_inv.
  apply Len_zero_iff in E; [| assumption].
  rewrite Len_contents in E by assumption. unfold len in E. lia.
Qed.

Lemma Len_of_contents (b : RingBufferOf) (l : list T) :
  wf b -> contents b = l -> Len b = len l.
Proof. intros Hwf <-. apply Len_contents, Hwf. Qed.

(** Draining returns the content, oldest first, as soon as the fuel covers
    one more [Read] than there are elements. *)
Lemma drain_contents (fuel : nat) (b : RingBufferOf) :
  wf b -> (length (contents b) < fuel)%nat ->
  exists b',
    drain fuel b = Ok (Some (contents b, b')) /\ r b' = w b' /\
    size b' = size b /\ Read b' = Ok (zero, Some ErrIsEmpty, b').
Proof.
  revert b. induction fuel as [| fuel IH]; intros b Hwf Hfuel; [lia |].
  simpl. destruct (Z.eq_dec (r b) (w b)) as [E | E].
  - rewrite Read_empty by assumption. rb_simpl.
    rewrite contents_empty by assumption.
    exists b. splits; try reflexivity; try assumption.
    apply Read_empty, E.
  - destruct (Read_nonempty b Hwf E) as (v & Hrd & Hc).
    rewrite Hrd, Hc in *. rb_simpl. simpl in Hfuel.
    destruct (IH (popped b)) as (b' & Hdr & Hrw & Hs & He);
      [apply wf_popped; assumption | lia |].
    rewrite Hdr. rb_simpl. exists b'. splits; try reflexivity; assumption.
Qed.

(** ** Growth keeps the data in order *)

(** C2.  On an empty unbounded buffer of capacity [c], writing [c + 1]
    values returns unless the grown store cannot be allocated (its size
    does not fit an [int] and [make] panics); the capacity is then greater
    than [c], and reading until [ErrIsEmpty] returns exactly the values
    written, in the order they were written. *)
Theorem growth_preserves_order (vs : list T) (b : RingBufferOf) (ω : W) (c : Z) :
  wf b -> maxSize b = 0 -> r b = w b -> Capacity b = c -> len vs = c + 1 ->
  (WriteAll vs b ω = Panic /\ int_max < grown c) \/
  (exists b',
    WriteAll vs b ω = Ok (b', ω) /\
    Capacity b' > c /\
    PeekAll b' = Ok vs /\
    forall fuel, (length vs < fuel)%nat ->
      exists b'', drain fuel b' = Ok (Some (vs, b'')) /\
                  Read b'' = Ok (zero, Some ErrIsEmpty, b'')).
Proof.
  unfold Capacity. intros Hwf Hm Hemp Hc Hlen.
  pose proof (Len_range b Hwf) as HL.
  pose proof (contents_empty b Hwf Hemp) as Hnil.
  pose proof (Len_of_contents b [] Hwf Hnil) as HL0. unfold len in HL0, Hlen. simpl in HL0.
  assert (Hsplit : exists vs1 x y, vs = vs1 ++ [x; y] /\ Z.of_nat (length vs1) = c - 1).
  { exists (take (Z.to_nat (c - 1)) vs).
    pose proof (take_drop (Z.to_nat (c - 1)) vs) as Htd.
    assert (Hd : length (drop (Z.to_nat (c - 1)) vs) = 2%nat)
      by (rewrite length_drop; lia).
    destruct (drop (Z.to_nat (c - 1)) vs) as [| x [| y [| z tl]]]; simpl in Hd; try lia.
    exists x, y. split; [symmetry; exact Htd |].
    rewrite length_take. lia. }
  destruct Hsplit as (vs1 & x & y & -> & Hlen1).
  destruct (WriteAll_room vs1 b ω Hwf) as (b1 & Hw1 & Hwf1 & Hc1 & Hs1 & Hm1 & _);
    [left; assumption | unfold len; lia |].
  rewrite Hnil in Hc1. simpl in Hc1.
  pose proof (Len_of_contents b1 vs1 Hwf1 Hc1) as HL1. unfold len in HL1.
  rewrite WriteAll_app, Hw1. rb_simpl. simpl.
  rewrite Write_store by (apply at_max_false; lia).
  destruct (push_total x b1 Hwf1)
    as [(Hp2 & _ & Hover) | (b2 & Hp2 & Hwf2 & Hc2 & _ & Hb2 & _ & Hm2 & _)].
  { left. rewrite Hp2. split; [reflexivity | congruence]. }
  right. rewrite Hp2. rb_simpl.
  assert (Hs2 : size b2 = grown c).
  { rewrite Hb2 by lia. unfold regrown. rb_simpl. congruence. }
  pose proof (Len_of_contents b2 _ Hwf2 Hc2) as HL2.
  unfold len in HL2. rewrite Hc1, length_app in HL2. simpl in HL2.
  pose proof (grown_gt c) as Hgt.
  destruct (push_appends y b2 Hwf2) as (b3 & Hp3 & Hwf3 & Hc3 & _ & _ & Hs3 & _).
  { destruct (Z.eq_dec c 1) as [-> | Hc1'].
    - right. rewrite Hs2. unfold grown, int_max. simpl. lia.
    - left. rewrite Hs2. unfold grown in *. destruct (Z.ltb_spec c 1024); [lia |].
      assert (256 <= c / 4) by (apply Z.div_le_lower_bound; lia). lia. }
  assert (Hall : contents b3 = vs1 ++ [x; y]).
  { rewrite Hc3, Hc2, Hc1, <- app_assoc. reflexivity. }
  exists b3. split.
  { rewrite Write_store by (apply at_max_false; lia).
    rewrite Hp3. reflexivity. }
  split; [lia |].
  split; [rewrite PeekAll_contents, Hall by assumption; reflexivity |].
  intros fuel Hfuel.
  destruct (drain_contents fuel b3 Hwf3) as (b4 & Hdr & _ & _ & He);
    [rewrite Hall; assumption |].
  exists b4. rewrite Hdr, Hall. split; [reflexivity | assumption].
Qed.

(** ** Bounded discard *)

(** C3.  On an empty buffer bounded by [m] with a callback [f], writing
    [m + k] values returns unless a grown store cannot be allocated, which
    needs [2 * m] beyond the range of [int]: the buffer holds the first [m]
    values, the discard counter advanced by [k] (as a uint64), and the world
    is the one obtained by calling [f] on the last [k] values in the order
    they were written.  A [Write] on a buffer at its bound changes the
    counter only: store, cursors and capacity are the ones before. *)
Theorem bounded_discard (vs : list T) (b : RingBufferOf) (ω : W)
    (f : T -> W -> W) (m k : Z) :
  wf b -> r b = w b -> MaxSize b = m -> 2 <= m ->
  onDiscards b = Some f -> 0 < k -> len vs = m + k ->
  ((WriteAll vs b ω = Panic /\ int_max < 2 * m) \/
   (exists b',
     WriteAll vs b ω =
       Ok (b', fold_left (fun ω0 v => f v ω0) (drop (Z.to_nat m) vs) ω) /\
     len (drop (Z.to_nat m) vs) = k /\
     Len b' = m /\
     PeekAll b' = Ok (take (Z.to_nat m) vs) /\
     Discards b' = u64 (Discards b + k) /\
     (Discards b + k < 18446744073709551616 -> Discards b' = Discards b + k))) /\
  (forall v b1 ω1, at_max b1 = true ->
     exists b1',
       Write v b1 ω1 = Ok (b1', notify b1 v ω1) /\
       buf b1' = buf b1 /\ r b1' = r b1 /\ w b1' = w b1 /\
       Capacity b1' = Capacity b1 /\ MaxSize b1' = MaxSize b1 /\
       PeekAll b1' = PeekAll b1 /\ Len b1' = Len b1 /\
       Discards b1' = u64 (Discards b1 + 1)).
Proof.
  unfold MaxSize, Discards, Capacity.
  intros Hwf Hemp Hm Hm2 Hf Hk Hlen. split.
  - pose proof (contents_empty b Hwf Hemp) as Hnil.
    pose proof (Len_of_contents b [] Hwf Hnil) as HL0. unfold len in HL0, Hlen. simpl in HL0.
    assert (Hlt : length (take (Z.to_nat m) vs) = Z.to_nat m)
      by (rewrite length_take; lia).
    assert (Hsplit : WriteAll vs b ω =
              let* p := WriteAll (take (Z.to_nat m) vs) b ω in
              WriteAll (drop (Z.to_nat m) vs) (fst p) (snd p))
      by (rewrite <- WriteAll_app, take_drop; reflexivity).
    rewrite Hsplit. clear Hsplit.
    destruct (WriteAll_below (take (Z.to_nat m) vs) b ω Hwf)
      as [(Hw1 & Hover) | (b1 & Hw1 & Hwf1 & Hc1 & _ & Hm1 & Hd1 & Ho1)];
      [right; unfold len; lia | |].
    { left. rewrite Hw1. split; [reflexivity | unfold len in Hover; lia]. }
    right. rewrite Hw1. rb_simpl.
    rewrite Hnil in Hc1. simpl in Hc1.
    pose proof (Len_of_contents b1 _ Hwf1 Hc1) as HL1. unfold len in HL1.
    assert (Hmax : at_max b1 = true) by (apply at_max_true; lia).
    exists (set_discards (u64 (discards b1 + len (drop (Z.to_nat m) vs))) b1).
    assert (Hdk : len (drop (Z.to_nat m) vs) = k)
      by (unfold len; rewrite length_drop; lia).
    split.
    { rewrite WriteAll_discard by assumption.
      unfold notify. rewrite Ho1, Hf. reflexivity. }
    split; [assumption |].
    split; [unfold Len in *; rb_simpl; lia |].
    split.
    { rewrite <- Hc1, <- PeekAll_contents by assumption. reflexivity. }
    rb_simpl. rewrite Hdk, Hd1. split; [reflexivity |].
    intros Hno. apply u64_small. pose proof (wf_discards b Hwf). lia.
  - intros v b1 ω1 Hmax. eexists. split; [apply Write_discard; assumption |].
    rb_simpl. splits; reflexivity.
Qed.

(** ** Overwrite on a bounded buffer *)

Lemma popped_r_mod (b : RingBufferOf) :
  wf b -> r (popped b) = (r b + 1) mod size b.
Proof.
  intros [Hb Hr Hw _ _ _ _]. unfold popped. rb_simpl.
  destruct (Z.eqb_spec (r b + 1) (size b)) as [E | E].
  - rewrite E, Z.mod_same by lia. reflexivity.
  - rewrite Z.mod_small by lia. reflexivity.
Qed.

(** One [Overwrite] on a bounded buffer: the oldest element goes when the
    bound is reached, and the value is appended. *)
Lemma Overwrite_step (v : T) (b : RingBufferOf) (ω : W) :
  wf b -> 0 < maxSize b -> Len b <= maxSize b ->
  (Overwrite v b ω = Panic /\ int_max < 2 * maxSize b) \/
  (exists b',
    Overwrite v b ω = Ok (b', ω) /\ wf b' /\
    contents b' = (if Len b <? maxSize b then contents b else tail (contents b)) ++ [v] /\
    maxSize b' = maxSize b /\ discards b' = discards b /\
    onDiscards b' = onDiscards b).
Proof.
  intros Hwf Hm HL. pose proof (Len_range b Hwf) as HR.
  destruct (Z.ltb_spec (Len b) (maxSize b)) as [Hlt | Hge].
  - pose proof (grown_le_double (size b)) as Hg.
    rewrite Overwrite_below by (apply at_max_false; lia).
    destruct (push_total v b Hwf)
      as [(Hp & Hfull & Hover)
         | (b1 & Hp & Hwf1 & Hc1 & _ & _ & _ & Hm1 & Hd1 & Ho1 & _)].
    + left. rewrite Hp. split; [reflexivity | lia].
    + right. exists b1. rewrite Hp. splits; first [assumption | reflexivity].
  - right.
    assert (Hmax : at_max b = true) by (apply at_max_true; lia).
    assert (Hne : r b <> w b).
    { intros E. apply Len_zero_iff in E; [lia | assumption]. }
    destruct (Read_nonempty b Hwf Hne) as (v0 & _ & Hc).
    exists (pushed v (popped b)).
    rewrite Overwrite_at_max by assumption.
    split; [reflexivity |].
    split; [apply wf_pushed, wf_popped, Hwf |].
    split; [| splits; reflexivity].
    rewrite contents_pushed.
    + rewrite Hc. reflexivity.
    + apply wf_popped, Hwf.
    + rewrite Len_popped by assumption. unfold popped. rb_simpl. lia.
Qed.

Lemma OverwriteAll_last (vs : list T) (b : RingBufferOf) (ω : W) :
  wf b -> 0 < maxSize b -> Len b <= maxSize b ->
  (OverwriteAll vs b ω = Panic /\ int_max < 2 * maxSize b) \/
  (exists b',
    OverwriteAll vs b ω = Ok (b', ω) /\ wf b' /\
    contents b' =
      drop (length (contents b ++ vs) - Z.to_nat (maxSize b)) (contents b ++ vs) /\
    maxSize b' = maxSize b /\ discards b' = discards b /\
    onDiscards b' = onDiscards b).
Proof.
  revert b. induction vs as [| v vs IH]; intros b Hwf Hm HL.
  - right. exists b. rewrite app_nil_r.
    rewrite Len_contents in HL by assumption. unfold len in HL.
    replace (length (contents b) - Z.to_nat (maxSize b))%nat with O by lia.
    rewrite drop_0. splits; first [assumption | reflexivity].
  - simpl.
    destruct (Overwrite_step v b ω Hwf Hm HL)
      as [(Ho & Hover) | (b1 & Ho & Hwf1 & Hc1 & Hm1 & Hd1 & Hcb1)].
    { left. rewrite Ho. split; [reflexivity | assumption]. }
    rewrite Ho. rb_simpl.
    pose proof (Len_contents b Hwf) as HLc. unfold len in HLc.
    pose proof (Len_contents b1 Hwf1) as HLc1. unfold len in HLc1.
    assert (HL1 : Len b1 <= maxSize b1 /\
                  drop (length (contents b1 ++ vs) - Z.to_nat (maxSize b))
                       (contents b1 ++ vs)
                  = drop (length (contents b ++ v :: vs) - Z.to_nat (maxSize b))
                       (contents b ++ v :: vs)).
    { rewrite HLc1, Hc1, Hm1.
      destruct (Z.ltb_spec (Len b) (maxSize b)) as [Hlt | Hge].
      - rewrite length_app. simpl. split; [lia |].
        rewrite <- app_assoc. reflexivity.
      - destruct (contents b) as [| x t] eqn:Hcb; simpl in HLc; [lia |].
        simpl tail. rewrite length_app. simpl length. split; [lia |].
        rewrite <- app_assoc. simpl.
        rewrite !length_app. simpl length.
        replace (S (length t + S (length vs)) - Z.to_nat (maxSize b))%nat
          with (S (length t + S (length vs) - Z.to_nat (maxSize b))) by lia.
        reflexivity. }
    destruct HL1 as [HL1 Hdrop].
    destruct (IH b1 Hwf1) as [(Hw & Hover) | (b' & Hw & Hwf' & Hc' & Hm' & Hd' & Ho')];
      [lia | assumption | |].
    { left. split; [assumption | lia]. }
    right. exists b'. rewrite Hw.
    rewrite Hm1, Hdrop in Hc'.
    splits; first [assumption | reflexivity | congruence].
Qed.

(** C4.  [Overwrite] on a buffer at its bound advances the read cursor with
    wrap-around, stores the value at the write cursor and advances it, and
    touches neither the discard counter nor the world of the callback: the
    oldest element leaves and the value is appended.  From an empty buffer
    bounded by [m], [m + k] calls of [Overwrite] return unless a grown store
    cannot be allocated, which needs [2 * m] beyond the range of [int], and
    leave exactly the last [m] values, oldest first. *)
Theorem overwrite_semantics (vs : list T) (b : RingBufferOf) (ω : W) (m k : Z) :
  wf b -> r b = w b -> MaxSize b = m -> 0 < m -> 0 <= k -> len vs = m + k ->
  ((OverwriteAll vs b ω = Panic /\ int_max < 2 * m) \/
   (exists b',
     OverwriteAll vs b ω = Ok (b', ω) /\
     PeekAll b' = Ok (drop (Z.to_nat k) vs) /\
     Len b' = m /\ Discards b' = Discards b)) /\
  (forall v b1 ω1, wf b1 -> at_max b1 = true ->
     exists b1',
       Overwrite v b1 ω1 = Ok (b1', ω1) /\
       r b1' = (r b1 + 1) mod Capacity b1 /\
       w b1' = (w b1 + 1) mod Capacity b1 /\
       buf b1' = <[Z.to_nat (w b1) := v]> (buf b1) /\
       Capacity b1' = Capacity b1 /\ Discards b1' = Discards b1 /\
       Len b1' = Len b1 /\
       exists old, PeekAll b1 = Ok (old :: tail (contents b1)) /\
                   PeekAll b1' = Ok (tail (contents b1) ++ [v])).
Proof.
  unfold MaxSize, Discards, Capacity.
  intros Hwf Hemp Hm Hm0 Hk Hlen. split.
  - pose proof (contents_empty b Hwf Hemp) as Hnil.
    pose proof (Len_of_contents b [] Hwf Hnil) as HL0. unfold len in HL0, Hlen. simpl in HL0.
    destruct (OverwriteAll_last vs b ω Hwf)
      as [(Ho & Hover) | (b' & Ho & Hwf' & Hc' & Hm' & Hd' & _)]; [lia | lia | |].
    { left. split; [assumption | lia]. }
    right.
    rewrite Hnil in Hc'. simpl in Hc'.
    replace (length vs - Z.to_nat (maxSize b))%nat with (Z.to_nat k) in Hc' by lia.
    exists b'. split; [assumption |].
    split; [rewrite PeekAll_contents, Hc' by assumption; reflexivity |].
    split; [| assumption].
    rewrite (Len_of_contents b' _ Hwf' Hc'). unfold len. rewrite length_drop. lia.
  - intros v b1 ω1 Hwf1 Hmax.
    assert (Hmax' := Hmax). apply at_max_true in Hmax'.
    assert (Hne : r b1 <> w b1).
    { intros E. apply Len_zero_iff in E; [lia | assumption]. }
    destruct (Read_nonempty b1 Hwf1 Hne) as (v0 & _ & Hc).
    pose proof (wf_popped b1 Hwf1) as Hwfp.
    pose proof (Len_range b1 Hwf1) as HR.
    pose proof (Len_popped b1 Hwf1 Hne) as HLp.
    assert (Hroom : Len (popped b1) + 1 < size (popped b1))
      by (rewrite HLp; unfold popped; rb_simpl; lia).
    pose proof (contents_pushed v (popped b1) Hwfp Hroom) as Hcp.
    pose proof (wf_pushed v (popped b1) Hwfp) as Hwfq.
    exists (pushed v (popped b1)).
    split; [apply Overwrite_at_max; assumption |].
    split; [apply popped_r_mod; assumption |].
    split.
    { destruct Hwf1 as [Hb Hr Hw _ _ _ _]. unfold pushed, popped. rb_simpl.
      destruct (Z.eqb_spec (w b1 + 1) (size b1)) as [E | E].
      - rewrite E, Z.mod_same by lia. reflexivity.
      - rewrite Z.mod_small by lia. reflexivity. }
    split; [reflexivity |]. split; [reflexivity |]. split; [reflexivity |].
    split.
    { rewrite (Len_contents _ Hwfq), Hcp, (Len_contents b1 Hwf1), Hc.
      unfold len. rewrite length_app. simpl. lia. }
    exists v0. rewrite !PeekAll_contents by assumption.
    rewrite Hcp, Hc. split; reflexivity.
Qed.

(** ** Truncate: where it keeps the last [n] elements *)

Lemma reachable_run (os : list op) (b b' : RingBufferOf) (ω ω' : W) :
  reachable b -> Forall op_args_int os -> run os b ω = Ok (b', ω') -> reachable b'.
Proof.
  revert b ω. induction os as [| o os IH]; intros b ω Hb Hos; simpl.
  - intros [= <- _]. assumption.
  - destruct (exec o b ω) as [[b1 ω1] |] eqn:E; rb_simpl; [| discriminate].
    inversion Hos as [| ? ? Ho Hos']; subst.
    apply IH; [| assumption].
    apply (reach_step o b b1 ω ω1); assumption.
Qed.

(** The reallocating branch, the in-place branch with wrapped cursors, and
    the in-place branch with the read cursor at slot 0 keep exactly the last
    [n] elements. *)
Lemma Truncate_keeps_last (n : Z) (b : RingBufferOf) :
  wf b -> 0 < n < Len b ->
  (size b >? imul n 2) = true \/ w b < r b \/ r b = 0 ->
  exists b',
    Truncate n b = Ok b' /\
    contents b' = drop (Z.to_nat (Len b - n)) (contents b).
Proof.
  intros Hwf Hn Hcase.
  pose proof (Len_range b Hwf) as HR.
  pose proof (Len_contents b Hwf) as HLc.
  pose proof (Len_wf b Hwf) as HLw.
  destruct (size b >? imul n 2) eqn:Hbig.
  - eexists. split; [apply Truncate_realloc; assumption |].
    unfold contents at 1. rb_simpl.
    destruct (Z.ltb_spec n 0); [lia |].
    change (Z.to_nat 0) with O. rewrite drop_0, Z.sub_0_r.
    apply take_app_length'. rewrite length_drop. unfold len in HLc. lia.
  - destruct Hcase as [Hc | [Hwrapped | Hr0]]; [discriminate | |].
    + eexists. split; [apply Truncate_wrapped; assumption |].
      destruct (Z.ltb_spec (w b) (r b)); [| lia].
      destruct Hwf as [Hb Hr Hw _ _ _ _]. unfold len in Hb.
      unfold contents. rb_simpl.
      destruct (Z.ltb_spec (w b) (r b)); [| lia].
      destruct (Z.geb_spec (w b - n) 0).
      * destruct (Z.ltb_spec (w b) (w b - n)); [lia |].
        rewrite drop_app_ge by (rewrite length_drop; lia).
        rewrite length_drop, take_drop_commute.
        f_equal; [lia |]. f_equal. lia.
      * destruct (Z.ltb_spec (w b) (size b + (w b - n))); [| lia].
        rewrite drop_app_le by (rewrite length_drop; lia).
        rewrite drop_drop. do 2 f_equal. lia.
    + destruct (Z.lt_trichotomy (r b) (w b)) as [Hlt | [Heq | Hgt]].
      * eexists. split; [apply Truncate_flat; assumption |].
        destruct (Z.ltb_spec (w b) (r b)); [lia |].
        destruct Hwf as [Hb Hr Hw _ _ _ _]. unfold len in Hb.
        unfold contents. rb_simpl.
        destruct (Z.ltb_spec (w b) (r b)); [lia |].
        destruct (Z.ltb_spec (w b) (w b - r b - n)); [lia |].
        rewrite Hr0. change (Z.to_nat 0) with O. rewrite drop_0.
        rewrite take_drop_commute. f_equal; [lia |]. f_equal. lia.
      * apply Len_zero_iff in Heq; [lia | assumption].
      * pose proof (wf_w b Hwf). lia.
Qed.

(** The in-place branch with unwrapped cursors and the read cursor past
    slot 0 sets the read cursor to [Len - n] instead of [w - n]: [r + n]
    elements stay. *)
Lemma Truncate_flat_defect (n : Z) (b : RingBufferOf) :
  wf b -> 0 < n < Len b -> (size b >? imul n 2) = false -> 0 < r b < w b ->
  exists b',
    Truncate n b = Ok b' /\ r b' = Len b - n /\ w b' = w b /\
    Len b' = r b + n /\ Len b' <> n.
Proof.
  intros Hwf Hn Hsmall Hflat.
  pose proof (Len_wf b Hwf) as HLw.
  destruct (Z.ltb_spec (w b) (r b)); [lia |].
  eexists. split; [apply Truncate_flat; (assumption || lia) |].
  rb_simpl. rewrite HLw. unfold Len. rb_simpl.
  destruct Hwf as [Hb Hr Hw Hs _ _ _].
  destruct (Z.eqb_spec (w b - r b - n) (w b)); [lia |].
  destruct (Z.gtb_spec (w b) (w b - r b - n)); [| lia].
  unwrap. splits; lia.
Qed.

(** ** Cursor and capacity invariant *)

(** C7.  In every state reachable from a constructor through public calls
    that return, both cursors are in [0, capacity), [Len] is
    [(w - r + capacity) mod capacity], the capacity is at least [Len + 1],
    and the cursors are equal exactly when the buffer holds nothing: [Len]
    is 0 and [PeekAll] returns no element.  No call from such a state
    leaves the cursors equal while the buffer holds data: a [Write] that
    stores and an [Overwrite] return with different cursors and the value
    as the newest element, the store having grown when the advanced write
    cursor met the read cursor; a [Read] or an [RRead] returns with equal
    cursors only when it took the last element; and a [Truncate] that cuts
    returns with different cursors.  A [Write] at the bound moves no
    cursor. *)
Theorem cursor_capacity_invariant (b : RingBufferOf) :
  reachable b ->
  0 <= r b < Capacity b /\
  0 <= w b < Capacity b /\
  len (buf b) = Capacity b /\
  Len b = (w b - r b + Capacity b) mod Capacity b /\
  Capacity b >= Len b + 1 /\
  (r b = w b <-> Len b = 0) /\
  (r b = w b <-> PeekAll b = Ok []) /\
  (exists l, PeekAll b = Ok l /\ len l = Len b) /\
  (forall v ω b' ω', Write v b ω = Ok (b', ω') ->
     if at_max b
     then r b' = r b /\ w b' = w b /\ PeekAll b' = PeekAll b
     else r b' <> w b' /\ Len b' = Len b + 1 /\
          exists l, PeekAll b = Ok l /\ PeekAll b' = Ok (l ++ [v])) /\
  (forall v ω b' ω', Overwrite v b ω = Ok (b', ω') ->
     r b' <> w b' /\ Len b' = (if at_max b then Len b else Len b + 1) /\
     exists l, PeekAll b' = Ok (l ++ [v])) /\
  (forall x e b', Read b = Ok (x, e, b') ->
     Len b' = (if r b =? w b then 0 else Len b - 1) /\
     (r b' = w b' <-> Len b <= 1)) /\
  (forall x e b', RRead b = Ok (x, e, b') ->
     Len b' = (if r b =? w b then 0 else Len b - 1) /\
     (r b' = w b' <-> Len b <= 1)) /\
  (forall n b', 0 < n < Len b -> Truncate n b = Ok b' ->
     r b' <> w b' /\ n <= Len b').
Proof.
  intros Hreach. pose proof (reachable_wf b Hreach) as Hwf.
  pose proof (wf_cursors b Hwf) as (C1 & C2 & C3 & C4 & C5 & C6 & C7 & C8).
  do 8 (split; [assumption |]).
  pose proof (Len_range b Hwf) as HR.
  pose proof (Len_contents b Hwf) as HLc. unfold len in HLc.
  assert (Hnonempty : forall b0, wf b0 -> 0 < Len b0 -> r b0 <> w b0).
  { intros b0 Hwf0 Hpos E. apply Len_zero_iff in E; [lia | assumption]. }
  assert (Hpush : forall v b', push v b = Ok b' ->
            r b' <> w b' /\ Len b' = Len b + 1 /\
            PeekAll b' = Ok (contents b ++ [v])).
  { intros v b' Hp.
    destruct (push_total v b Hwf) as [(Hp' & _) | (b1 & Hp' & Hwf1 & Hc1 & _)];
      [congruence |].
    assert (b1 = b') by congruence. subst b1.
    assert (HL1 : Len b' = Len b + 1).
    { rewrite (Len_contents b' Hwf1), Hc1. unfold len.
      rewrite length_app. simpl. lia. }
    split; [apply Hnonempty; [assumption | lia] |].
    split; [assumption |].
    rewrite PeekAll_contents, Hc1 by assumption. reflexivity. }
  assert (Hshrink : forall b1, wf b1 -> r b <> w b -> Len b1 = Len b - 1 ->
            Len b1 = (if r b =? w b then 0 else Len b - 1) /\
            (r b1 = w b1 <-> Len b <= 1)).
  { intros b1 Hwf1 Hne HL1.
    destruct (Z.eqb_spec (r b) (w b)); [contradiction |].
    split; [assumption |].
    assert (0 < Len b).
    { destruct (Z.eq_dec (Len b) 0) as [E0 | E0]; [| lia].
      apply Len_zero_iff in E0; [contradiction | assumption]. }
    rewrite <- (Len_zero_iff b1 Hwf1). lia. }
  splits.
  - intros v ω b' ω'. destruct (at_max b) eqn:Hc.
    + rewrite Write_discard by assumption. intros [= <- _]. splits; reflexivity.
    + rewrite Write_store by assumption.
      destruct (push v b) as [b1 |] eqn:Hp; rb_simpl; [| discriminate].
      intros [= <- _]. destruct (Hpush v b1 Hp) as (Hne & HL1 & Hpa).
      splits; auto. exists (contents b).
      split; [apply PeekAll_contents; assumption | assumption].
  - intros v ω b' ω'. destruct (at_max b) eqn:Hc.
    + rewrite Overwrite_at_max by assumption. intros [= <- _].
      apply at_max_true in Hc.
      assert (Hne : r b <> w b) by (apply Hnonempty; [assumption | lia]).
      pose proof (wf_popped b Hwf) as Hwfp.
      pose proof (Len_popped b Hwf Hne) as HLp.
      assert (Hroom : Len (popped b) + 1 < size (popped b))
        by (rewrite HLp; unfold popped; rb_simpl; lia).
      pose proof (contents_pushed v (popped b) Hwfp Hroom) as Hcp.
      pose proof (wf_pushed v (popped b) Hwfp) as Hwfq.
      assert (HLq : Len (pushed v (popped b)) = Len b).
      { rewrite (Len_contents _ Hwfq), Hcp. unfold len.
        rewrite length_app. simpl length.
        pose proof (Len_contents _ Hwfp) as HLc'. unfold len in HLc'. lia. }
      split; [apply Hnonempty; [assumption | lia] |].
      split; [assumption |].
      exists (contents (popped b)).
      rewrite PeekAll_contents, Hcp by assumption. reflexivity.
    + rewrite Overwrite_below by assumption.
      destruct (push v b) as [b1 |] eqn:Hp; rb_simpl; [| discriminate].
      intros [= <- _]. destruct (Hpush v b1 Hp) as (Hne & HL1 & Hpa).
      splits; auto. exists (contents b). assumption.
  - intros x e b'. destruct (Z.eq_dec (r b) (w b)) as [E | E].
    + rewrite Read_empty by assumption. intros [= _ _ <-].
      destruct (Z.eqb_spec (r b) (w b)); [| contradiction].
      pose proof (proj1 C6 E). split; [assumption |]. split; [lia | auto].
    + destruct (Read_nonempty b Hwf E) as (v0 & -> & _). intros [= _ _ <-].
      apply Hshrink; [apply wf_popped; assumption | assumption |].
      apply Len_popped; assumption.
  - intros x e b'. destruct (Z.eq_dec (r b) (w b)) as [E | E].
    + unfold RRead. rewrite E, Z.eqb_refl. intros [= _ _ <-].
      pose proof (proj1 C6 E). split; [assumption |].
      rewrite <- E. split; [lia | auto].
    + destruct (RRead_nonempty b Hwf E) as (v0 & -> & Hc). intros [= _ _ <-].
      pose proof (wf_unpushed b Hwf) as Hwfu.
      apply Hshrink; [assumption | assumption |].
      pose proof (Len_contents _ Hwfu) as HLu. unfold len in HLu.
      rewrite Hc, length_app in HLc. simpl in HLc. lia.
  - intros n b' Hn Ht.
    pose proof (wf_Truncate n b b' Hwf Ht) as Hwf'.
    assert (HL' : n <= Len b').
    { destruct (size b >? imul n 2) eqn:Hbig.
      - destruct (Truncate_keeps_last n b Hwf Hn) as (b1 & Ht1 & Hc1); [auto |].
        assert (b1 = b') by congruence. subst b1.
        rewrite (Len_contents b' Hwf'), Hc1. unfold len. rewrite length_drop. lia.
      - destruct (Z.lt_trichotomy (r b) (w b)) as [Hlt | [Heq | Hgt]].
        + destruct (Z.eq_dec (r b) 0) as [E0 | E0].
          * destruct (Truncate_keeps_last n b Hwf Hn) as (b1 & Ht1 & Hc1); [auto |].
            assert (b1 = b') by congruence. subst b1.
            rewrite (Len_contents b' Hwf'), Hc1. unfold len. rewrite length_drop. lia.
          * destruct (Truncate_flat_defect n b Hwf Hn Hbig) as (b1 & Ht1 & _ & _ & HL1 & _);
              [lia |].
            assert (b1 = b') by congruence. subst b1. lia.
        + apply C6 in Heq. lia.
        + destruct (Truncate_keeps_last n b Hwf Hn) as (b1 & Ht1 & Hc1); [auto |].
          assert (b1 = b') by congruence. subst b1.
          rewrite (Len_contents b' Hwf'), Hc1. unfold len. rewrite length_drop. lia. }
    split; [apply Hnonempty; [assumption | lia] | assumption].
Qed.

(** ** SetMaxSize *)

Lemma SetMaxSize_cases (n : Z) (b : RingBufferOf) :
  (n = 0 -> SetMaxSize n b = Ok (0, set_maxSize 0 b)) /\
  (n < minBufferSize -> n <> 0 -> SetMaxSize n b = Ok (maxSize b, b)) /\
  (minBufferSize <= n ->
   SetMaxSize n b = let* b' := Truncate n (set_maxSize n b) in Ok (maxSize b', b')) /\
  (forall m b', SetMaxSize n b = Ok (m, b') -> m = MaxSize b').
Proof.
  unfold SetMaxSize, minBufferSize, MaxSize. splits.
  - intros ->. reflexivity.
  - intros Hlt Hne. destruct (Z.eqb_spec n 0); [contradiction |].
    destruct (Z.geb_spec n 2); [lia | reflexivity].
  - intros Hge. destruct (Z.eqb_spec n 0); [lia |].
    destruct (Z.geb_spec n 2); [reflexivity | lia].
  - intros m b'. destruct (n =? 0); [intros [= <- <-]; reflexivity |].
    destruct (n >=? 2); [| intros [= <- <-]; reflexivity].
    rb_simpl. destruct (Truncate n (set_maxSize n b)); rb_simpl; [| discriminate].
    intros [= <- <-]. reflexivity.
Qed.

(** * Further properties of the operations *)

(** ** First in, first out; last in, first out *)

Lemma Len_unpushed (b : RingBufferOf) :
  wf b -> r b <> w b -> Len (unpushed b) = Len b - 1.
Proof.
  intros Hwf Hne.
  destruct (RRead_nonempty b Hwf Hne) as (v & _ & Hc).
  rewrite (Len_contents b Hwf), (Len_contents _ (wf_unpushed b Hwf)), Hc.
  unfold len. rewrite length_app. simpl. lia.
Qed.

Lemma rdrain_contents (fuel : nat) (b : RingBufferOf) :
  wf b -> (length (contents b) < fuel)%nat ->
  exists b',
    rdrain fuel b = Ok (Some (rev (contents b), b')) /\ r b' = w b' /\
    size b' = size b /\ wf b'.
Proof.
  revert b. induction fuel as [| fuel IH]; intros b Hwf Hfuel; [lia |].
  simpl. destruct (Z.eq_dec (r b) (w b)) as [E | E].
  - assert (Hrr : RRead b = Ok (zero, Some ErrIsEmpty, b))
      by (unfold RRead; rewrite E, Z.eqb_refl; reflexivity).
    rewrite Hrr. rb_simpl. rewrite contents_empty by assumption.
    exists b. splits; try reflexivity; assumption.
  - destruct (RRead_nonempty b Hwf E) as (v & Hrd & Hc).
    rewrite Hrd, Hc in *. rb_simpl. rewrite length_app in Hfuel. simpl in Hfuel.
    destruct (IH (unpushed b)) as (b' & Hdr & Hrw & Hs & Hwf');
      [apply wf_unpushed; assumption | lia |].
    rewrite Hdr. rb_simpl. rewrite rev_unit.
    exists b'. splits; try reflexivity; assumption.
Qed.

(** X1.  Writes that stay within the bound (or on an unbounded buffer) are
    read back first in, first out: after them, the buffer holds what it held
    followed by the values written, [Len] has grown by their number, and
    reading until [ErrIsEmpty] returns that sequence and leaves the buffer
    empty.  The writes return unless a grown store cannot be allocated. *)
Theorem fifo_order (vs : list T) (b : RingBufferOf) (ω : W) :
  wf b -> maxSize b = 0 \/ Len b + len vs <= maxSize b ->
  (WriteAll vs b ω = Panic /\ int_max < 2 * (Len b + len vs)) \/
  (exists l b',
     PeekAll b = Ok l /\
     WriteAll vs b ω = Ok (b', ω) /\
     PeekAll b' = Ok (l ++ vs) /\
     Len b' = Len b + len vs /\
     Discards b' = Discards b /\
     forall fuel, (length (l ++ vs) < fuel)%nat ->
       exists b'', drain fuel b' = Ok (Some (l ++ vs, b'')) /\
                   IsEmpty b'' = true /\ Len b'' = 0).
Proof.
  intros Hwf Hm.
  destruct (WriteAll_below vs b ω Hwf Hm)
    as [Hpanic | (b' & Hw & Hwf' & Hc' & _ & _ & Hd' & _)]; [left; exact Hpanic |].
  right. exists (contents b), b'.
  split; [apply PeekAll_contents; assumption |].
  split; [assumption |].
  split; [rewrite PeekAll_contents, Hc' by assumption; reflexivity |].
  split.
  { rewrite (Len_contents b' Hwf'), (Len_contents b Hwf), Hc'.
    unfold len. rewrite length_app. lia. }
  split; [exact Hd' |].
  intros fuel Hfuel.
  destruct (drain_contents fuel b' Hwf') as (b'' & Hdr & Hrw & _ & _);
    [rewrite Hc'; assumption |].
  exists b''. rewrite Hdr, Hc'. split; [reflexivity |].
  unfold IsEmpty, Len. rewrite Hrw, Z.eqb_refl. split; reflexivity.
Qed.

(** X2.  Popping from the back until [ErrIsEmpty] returns the content of a
    well-formed buffer newest first, the reverse of what [PeekAll] shows,
    and leaves the buffer empty with the same capacity. *)
Theorem lifo_order (fuel : nat) (b : RingBufferOf) :
  wf b -> (Z.to_nat (Len b) < fuel)%nat ->
  exists l b',
    PeekAll b = Ok l /\
    rdrain fuel b = Ok (Some (rev l, b')) /\
    IsEmpty b' = true /\ Len b' = 0 /\ Capacity b' = Capacity b.
Proof.
  intros Hwf Hfuel.
  rewrite (Len_contents b Hwf) in Hfuel. unfold len in Hfuel.
  destruct (rdrain_contents fuel b Hwf) as (b' & Hdr & Hrw & Hs & _); [lia |].
  exists (contents b), b'.
  split; [apply PeekAll_contents; assumption |].
  split; [exact Hdr |].
  unfold IsEmpty, Len, Capacity. rewrite Hrw, Z.eqb_refl. splits; auto.
Qed.

(** ** Round trips between Write and RRead *)

(** X3.  A write that is not discarded is what the back of the buffer
    shows next: [RPeek] returns the value written, and [RRead] returns it
    and leaves the content and the length there were before the write.  The
    write returns unless the grown store cannot be allocated. *)
Theorem Write_RRead_roundtrip (v : T) (b : RingBufferOf) (ω : W) :
  wf b -> at_max b = false ->
  (Write v b ω = Panic /\ Len b + 1 = Capacity b /\ int_max < grown (Capacity b)) \/
  (exists b1 b2,
     Write v b ω = Ok (b1, ω) /\
     Len b1 = Len b + 1 /\
     RPeek b1 = Ok (v, None) /\
     RRead b1 = Ok (v, None, b2) /\
     PeekAll b2 = PeekAll b /\ Len b2 = Len b).
Proof.
  unfold Capacity. intros Hwf Hc. rewrite Write_store by assumption.
  destruct (push_total v b Hwf)
    as [(Hp & Hfull & Hover) | (b1 & Hp & Hwf1 & Hc1 & _)].
  { left. rewrite Hp. auto. }
  right. rewrite Hp. rb_simpl.
  assert (HL1 : Len b1 = Len b + 1).
  { rewrite (Len_contents b1 Hwf1), (Len_contents b Hwf), Hc1.
    unfold len. rewrite length_app. simpl. lia. }
  assert (Hne : r b1 <> w b1).
  { intros E. apply Len_zero_iff in E; [| assumption].
    pose proof (Len_range b Hwf). lia. }
  destruct (RRead_nonempty b1 Hwf1 Hne) as (v1 & Hrr & Hcr).
  destruct (RPeek_nonempty b1 Hwf1 Hne) as (v2 & Hrp & Hcp).
  rewrite Hc1 in Hcr, Hcp.
  apply app_inj_tail in Hcr as [Hcb <-].
  apply app_inj_tail in Hcp as [_ <-].
  exists b1, (unpushed b1).
  split; [reflexivity |]. split; [assumption |].
  split; [assumption |]. split; [assumption |].
  split.
  - rewrite !PeekAll_contents by (assumption || apply wf_unpushed; assumption).
    congruence.
  - rewrite Len_unpushed by assumption. lia.
Qed.

(** X4.  Popping the newest value and writing it back restores the buffer
    exactly, field for field, when the buffer is unbounded or within its
    bound. *)
Theorem RRead_Write_roundtrip (b : RingBufferOf) (ω : W) :
  wf b -> r b <> w b -> maxSize b = 0 \/ Len b <= maxSize b ->
  exists v b1,
    RRead b = Ok (v, None, b1) /\
    Len b1 = Len b - 1 /\
    Write v b1 ω = Ok (b, ω).
Proof.
  intros Hwf Hne Hm.
  pose proof (wf_unpushed b Hwf) as Hwfu.
  pose proof (Len_unpushed b Hwf Hne) as HLu.
  pose proof (Len_range b Hwf) as HR.
  destruct (index_ok (buf b) (w (unpushed b))) as (v & Hv & Hix).
  { destruct Hwfu as [_ _ Hw' _ _ _ _]. destruct Hwf.
    unfold unpushed in *. rb_simpl. lia. }
  exists v, (unpushed b).
  split.
  { destruct Hwf as [Hb Hr Hw Hs _ _ _].
    unfold RRead. destruct (Z.eqb_spec (r b) (w b)); [contradiction |].
    unfold unpushed in *. rb_simpl.
    destruct (Z.eqb_spec (w b) 0); rb_simpl; unwrap; rewrite Hix; reflexivity. }
  split; [assumption |].
  rewrite Write_store
    by (apply at_max_false; unfold unpushed at 1 3; rb_simpl; lia).
  rewrite push_room by (assumption || (unfold unpushed at 2; rb_simpl; lia)).
  rb_simpl. do 2 f_equal.
  unfold pushed. change (buf (unpushed b)) with (buf b).
  rewrite list_insert_id by assumption.
  destruct Hwf as [Hb Hr Hw Hs _ _ _].
  unfold unpushed. rb_simpl.
  assert (Hwb : (if (if w b =? 0 then size b - 1 else w b - 1) + 1 =? size b
                 then 0 else (if w b =? 0 then size b - 1 else w b - 1) + 1) = w b).
  { destruct (Z.eqb_spec (w b) 0) as [E0 | E0].
    - rewrite E0. destruct (Z.eqb_spec (size b - 1 + 1) (size b)); lia.
    - destruct (Z.eqb_spec (w b - 1 + 1) (size b)); lia. }
  rewrite Hwb. destruct b; reflexivity.
Qed.

(** ** Peeking agrees with reading *)

(** X5.  On every buffer, [Peek] returns the value and the error that
    [Read] returns, and [RPeek] those that [RRead] returns; and a peek
    panics exactly when the read does. *)
Theorem Peek_agrees_with_Read (b : RingBufferOf) :
  (forall v e b', Read b = Ok (v, e, b') -> Peek b = Ok (v, e)) /\
  (Read b = Panic <-> Peek b = Panic) /\
  (forall v e b', RRead b = Ok (v, e, b') -> RPeek b = Ok (v, e)) /\
  (RRead b = Panic <-> RPeek b = Panic).
Proof.
  unfold Read, Peek, RRead, RPeek. splits.
  - intros v e b'. destruct (r b =? w b); [intros [= <- <- _]; reflexivity |].
    destruct (index (buf b) (r b)); rb_simpl; [| discriminate].
    intros [= <- <- _]. reflexivity.
  - destruct (r b =? w b); [split; discriminate |].
    destruct (index (buf b) (r b)); rb_simpl; split; (discriminate || reflexivity).
  - intros v e b'. destruct (r b =? w b); [intros [= <- <- _]; reflexivity |].
    destruct (w b =? 0); rb_simpl;
      match goal with |- context [index ?l ?i] => destruct (index l i) end;
      rb_simpl; try discriminate; intros [= <- <- _]; reflexivity.
  - destruct (r b =? w b); [split; discriminate |].
    destruct (w b =? 0); rb_simpl;
      match goal with |- context [index ?l ?i] => destruct (index l i) end;
      rb_simpl; split; (discriminate || reflexivity).
Qed.

(** ** Peeking at the first and the last elements *)

Lemma LPeekN_contents (n : Z) (b : RingBufferOf) :
  wf b -> LPeekN n b = Ok (take (Z.to_nat n) (contents b)).
Proof.
  intros Hwf. unfold LPeekN.
  destruct (Z.leb_spec n 0).
  - replace (Z.to_nat n) with O by lia. reflexivity.
  - rewrite PeekAll_contents by assumption. rb_simpl.
    destruct (Z.geb_spec (len (contents b)) n).
    + apply slice_to_ok. lia.
    + rewrite take_ge by (unfold len in *; lia). reflexivity.
Qed.

Lemma RPeekN_contents (n : Z) (b : RingBufferOf) :
  wf b ->
  RPeekN n b = Ok (drop (length (contents b) - Z.to_nat n) (contents b)).
Proof.
  intros Hwf. pose proof (Len_range b Hwf) as HR.
  pose proof (Len_contents b Hwf) as HLc. unfold len in HLc.
  destruct (Z.le_gt_cases n 0) as [Hn | Hn].
  - unfold RPeekN. destruct (Z.leb_spec n 0); [| lia].
    replace (Z.to_nat n) with O by lia.
    rewrite Nat.sub_0_r, drop_all. reflexivity.
  - destruct (Z.le_gt_cases n (Len b)) as [Hle | Hgt].
    + rewrite RPeekN_ok by (assumption || lia). do 2 f_equal. lia.
    + unfold RPeekN. destruct (Z.leb_spec n 0); [lia |].
      rewrite PeekAll_contents by assumption. rb_simpl.
      destruct (Z.geb_spec (len (contents b)) n); [unfold len in *; lia |].
      replace (length (contents b) - Z.to_nat n)%nat with O by lia.
      rewrite drop_0. reflexivity.
Qed.

(** X6.  On a well-formed buffer, [LPeekN n] returns the first [n] elements
    of what [PeekAll] returns and [RPeekN n] the last [n], all of them when
    there are no more than [n] and none when [n] is not positive; neither
    panics, and the first [n] followed by the last [Len - n] are the whole
    content. *)
Theorem peek_n_elements (n : Z) (b : RingBufferOf) :
  wf b ->
  exists l,
    PeekAll b = Ok l /\ len l = Len b /\
    LPeekN n b = Ok (take (Z.to_nat n) l) /\
    RPeekN n b = Ok (drop (length l - Z.to_nat n) l) /\
    (n <= 0 -> LPeekN n b = Ok [] /\ RPeekN n b = Ok []) /\
    (Len b <= n -> 0 < n -> LPeekN n b = Ok l /\ RPeekN n b = Ok l) /\
    (0 <= n <= Len b ->
     exists front back,
       LPeekN n b = Ok front /\ RPeekN (Len b - n) b = Ok back /\
       front ++ back = l /\ len front = n).
Proof.
  intros Hwf. pose proof (Len_contents b Hwf) as HLc. unfold len in HLc.
  exists (contents b).
  rewrite PeekAll_contents, LPeekN_contents, RPeekN_contents by assumption.
  split; [reflexivity |]. split; [unfold len; lia |].
  split; [reflexivity |]. split; [reflexivity |].
  split.
  { intros Hn. replace (Z.to_nat n) with O by lia.
    rewrite Nat.sub_0_r, drop_all. split; reflexivity. }
  split.
  { intros Hn Hpos. rewrite take_ge by lia.
    replace (length (contents b) - Z.to_nat n)%nat with O by lia.
    rewrite drop_0. split; reflexivity. }
  intros Hn. exists (take (Z.to_nat n) (contents b)), (drop (Z.to_nat n) (contents b)).
  split; [reflexivity |].
  split.
  { rewrite RPeekN_contents by assumption. do 2 f_equal. lia. }
  split; [apply take_drop |].
  unfold len. rewrite length_take. lia.
Qed.

(** ** Reset *)

(** X7.  [Reset] on a well-formed buffer returns an empty buffer over a
    fresh store of [initialSize] zero values, with both cursors at 0; the
    discard counter, the maximum size and the callback are the ones before.
    [Truncate] with a non-positive argument is [Reset]. *)
Theorem Reset_restores_initial (b : RingBufferOf) :
  wf b ->
  exists b',
    Reset b = Ok b' /\ wf b' /\
    Capacity b' = initialSize b /\ r b' = 0 /\ w b' = 0 /\
    buf b' = replicate (Z.to_nat (initialSize b)) zero /\
    Len b' = 0 /\ IsEmpty b' = true /\ PeekAll b' = Ok [] /\
    initialSize b' = initialSize b /\
    Discards b' = Discards b /\ MaxSize b' = MaxSize b /\
    onDiscards b' = onDiscards b /\
    (forall n, n <= 0 -> Truncate n b = Ok b').
Proof.
  intros Hwf. pose proof (wf_initialSize b Hwf) as Hi.
  eexists. split; [apply Reset_ok; lia |].
  split; [apply (wf_Reset b); [assumption | apply Reset_ok; lia] |].
  unfold Capacity, IsEmpty, Len, PeekAll, Discards, MaxSize. rb_simpl.
  splits; try reflexivity.
  intros n Hn. unfold Truncate. destruct (Z.leb_spec n 0); [| lia].
  apply Reset_ok. lia.
Qed.

(** ** Truncate *)

Lemma realloc_test (n : Z) (b : RingBufferOf) :
  wf b -> 0 < n ->
  (2 * n < size b -> (size b >? imul n 2) = true) /\
  (size b <= 2 * n -> 2 * n <= int_max -> (size b >? imul n 2) = false).
Proof.
  intros Hwf Hn. pose proof (wf_size b Hwf) as Hs. split.
  - intros Hbig. unwrap. rewrite Z.gtb_ltb. apply Z.ltb_lt. lia.
  - intros Hsmall Hfit. unwrap. rewrite Z.gtb_ltb. apply Z.ltb_ge. lia.
Qed.

Lemma Truncate_total (n : Z) (b : RingBufferOf) :
  wf b -> exists b', Truncate n b = Ok b'.
Proof.
  intros Hwf.
  destruct (Z.le_gt_cases n 0) as [Hn | Hn].
  { unfold Truncate. destruct (Z.leb_spec n 0); [| lia].
    eexists. apply Reset_ok. pose proof (wf_initialSize b Hwf). lia. }
  destruct (Z.le_gt_cases (Len b) n) as [HL | HL].
  { exists b. apply Truncate_noop; lia. }
  destruct (size b >? imul n 2) eqn:Hbig.
  - eexists. apply Truncate_realloc; (assumption || lia).
  - destruct (Z.lt_trichotomy (r b) (w b)) as [Hlt | [Heq | Hgt]].
    + eexists. apply Truncate_flat; (assumption || lia).
    + apply Len_zero_iff in Heq; [lia | assumption].
    + eexists. apply Truncate_wrapped; (assumption || lia).
Qed.

(** X8.  [Truncate n] with [0 < n < Len] keeps exactly the last [n]
    elements, oldest first, in three cases: when the capacity is more than
    [2 * n] (the store is then replaced by one of [n + 1] slots), when the
    cursors are wrapped, and when the read cursor is at slot 0; in the last
    two the store and the capacity stay.  When [Len <= n] the buffer is
    returned as it is. *)
Theorem Truncate_last_n (n : Z) (b : RingBufferOf) :
  wf b -> 0 < n ->
  (Len b <= n -> Truncate n b = Ok b) /\
  (n < Len b -> 2 * n < Capacity b \/ w b < r b \/ r b = 0 ->
   exists l b',
     PeekAll b = Ok l /\
     Truncate n b = Ok b' /\ wf b' /\
     PeekAll b' = Ok (drop (Z.to_nat (Len b - n)) l) /\
     Len b' = n /\
     (2 * n < Capacity b -> Capacity b' = n + 1 /\ r b' = 0 /\ w b' = n) /\
     (Capacity b <= 2 * n -> 2 * n <= int_max ->
      Capacity b' = Capacity b /\ buf b' = buf b /\ w b' = w b)).
Proof.
  unfold Capacity. intros Hwf Hn. split; [apply Truncate_noop; assumption |].
  intros HL Hcase.
  pose proof (realloc_test n b Hwf Hn) as [Hbig Hsmall].
  pose proof (Len_contents b Hwf) as HLc. unfold len in HLc.
  destruct (Truncate_keeps_last n b Hwf) as (b' & Ht & Hc); [lia | |].
  { destruct Hcase as [H | [H | H]]; auto. }
  pose proof (wf_Truncate n b b' Hwf Ht) as Hwf'.
  exists (contents b), b'.
  split; [apply PeekAll_contents; assumption |].
  split; [assumption |]. split; [assumption |].
  split; [rewrite PeekAll_contents, Hc by assumption; reflexivity |].
  split.
  { rewrite (Len_contents b' Hwf'), Hc. unfold len. rewrite length_drop. lia. }
  split.
  - intros H2n. rewrite Truncate_realloc in Ht by (auto || lia).
    injection Ht as <-. rb_simpl. auto.
  - intros Hle Hfit. specialize (Hsmall Hle Hfit).
    destruct (Z.lt_trichotomy (r b) (w b)) as [Hlt | [Heq | Hgt]].
    + rewrite Truncate_flat in Ht by (auto || lia). injection Ht as <-. auto.
    + apply Len_zero_iff in Heq; [lia | assumption].
    + rewrite Truncate_wrapped in Ht by (auto || lia). injection Ht as <-. auto.
Qed.

(** X9.  In the remaining case (capacity at most [2 * n], unwrapped cursors,
    read cursor past slot 0), [Truncate n] with [0 < n < Len] moves the read
    cursor to slot [Len - n], whatever the read cursor was: the buffer then
    holds [r + n] elements, not [n]. *)
Theorem Truncate_in_place_unwrapped (n : Z) (b : RingBufferOf) :
  wf b -> 0 < n < Len b -> Capacity b <= 2 * n -> 2 * n <= int_max ->
  0 < r b < w b ->
  exists b',
    Truncate n b = Ok b' /\ wf b' /\
    r b' = Len b - n /\ w b' = w b /\ buf b' = buf b /\
    Capacity b' = Capacity b /\
    Len b' = r b + n /\ Len b' <> n.
Proof.
  unfold Capacity. intros Hwf Hn Hsmall Hfit Hflat.
  pose proof (realloc_test n b Hwf (proj1 Hn)) as [_ Hno].
  specialize (Hno Hsmall Hfit).
  destruct (Truncate_flat_defect n b Hwf Hn Hno Hflat) as (b' & Ht & Hr' & Hw' & HL' & Hne).
  exists b'. split; [assumption |].
  split; [apply (wf_Truncate n b); assumption |].
  rewrite Truncate_flat in Ht by (assumption || lia). injection Ht as <-.
  rb_simpl. splits; auto.
Qed.

(** ** What each operation leaves alone *)

Lemma Truncate_frame (n : Z) (b b' : RingBufferOf) :
  wf b -> Truncate n b = Ok b' ->
  initialSize b' = initialSize b /\ maxSize b' = maxSize b /\
  discards b' = discards b /\ onDiscards b' = onDiscards b /\
  (2 <= size b -> 2 <= size b').
Proof.
  intros Hwf. pose proof (wf_initialSize b Hwf) as Hi.
  destruct (Z.le_gt_cases n 0) as [Hn | Hn].
  { unfold Truncate. destruct (Z.leb_spec n 0); [| lia].
    rewrite Reset_ok by lia. intros [= <-]. rb_simpl. splits; auto; lia. }
  destruct (Z.le_gt_cases (Len b) n) as [HL | HL].
  { rewrite Truncate_noop by lia. intros [= <-]. splits; auto. }
  destruct (size b >? imul n 2) eqn:Hbig.
  - rewrite Truncate_realloc by (assumption || lia). intros [= <-].
    rb_simpl. splits; auto; lia.
  - destruct (Z.lt_trichotomy (r b) (w b)) as [Hlt | [Heq | Hgt]].
    + rewrite Truncate_flat by (assumption || lia). intros [= <-]. splits; auto.
    + apply Len_zero_iff in Heq; [lia | assumption].
    + rewrite Truncate_wrapped by (assumption || lia). intros [= <-]. splits; auto.
Qed.

Lemma push_frame (v : T) (b b' : RingBufferOf) :
  wf b -> push v b = Ok b' ->
  initialSize b' = initialSize b /\ maxSize b' = maxSize b /\
  discards b' = discards b /\ onDiscards b' = onDiscards b /\
  size b <= size b' /\ Len b' = Len b + 1.
Proof.
  intros Hwf Hp.
  destruct (push_total v b Hwf)
    as [(Hp' & _) | (b1 & Hp' & Hwf1 & Hc1 & _ & _ & Hs1 & Hm1 & Hd1 & Ho1 & Hi1)];
    [congruence |].
  assert (b1 = b') by congruence. subst b1.
  splits; auto.
  rewrite (Len_contents b' Hwf1), (Len_contents b Hwf), Hc1.
  unfold len. rewrite length_app. simpl. lia.
Qed.

Lemma exec_frame (o : op) (b b' : RingBufferOf) (ω ω' : W) :
  wf b -> op_args_int o -> exec o b ω = Ok (b', ω') ->
  initialSize b' = initialSize b /\
  (2 <= size b -> 2 <= size b') /\
  (maxSize b' = maxSize b \/
   exists n, o = OpSetMaxSize n /\ (n = 0 \/ 2 <= n) /\ maxSize b' = n) /\
  (onDiscards b' = onDiscards b \/
   exists f, o = OpSetOnDiscards (Some f) /\ onDiscards b' = Some f) /\
  ((discards b' = discards b /\ ω' = ω) \/
   exists v, o = OpWrite v /\ at_max b = true /\
             discards b' = u64 (discards b + 1) /\ ω' = notify b v ω).
Proof.
  intros Hwf Hint.
  assert (Hsame : forall b0 : RingBufferOf,
            initialSize b0 = initialSize b -> (2 <= size b -> 2 <= size b0) ->
            maxSize b0 = maxSize b -> onDiscards b0 = onDiscards b ->
            discards b0 = discards b ->
            initialSize b0 = initialSize b /\
            (2 <= size b -> 2 <= size b0) /\
            (maxSize b0 = maxSize b \/
             exists n, o = OpSetMaxSize n /\ (n = 0 \/ 2 <= n) /\ maxSize b0 = n) /\
            (onDiscards b0 = onDiscards b \/
             exists f, o = OpSetOnDiscards (Some f) /\ onDiscards b0 = Some f) /\
            ((discards b0 = discards b /\ ω = ω) \/
             exists v, o = OpWrite v /\ at_max b = true /\
                       discards b0 = u64 (discards b + 1) /\ ω = notify b v ω))
    by (intros; splits; auto).
  destruct o; simpl in *.
  - destruct (Z.eq_dec (r b) (w b)) as [E | E].
    + rewrite Read_empty by assumption. rb_simpl. intros [= <- <-]. apply Hsame; auto.
    + destruct (Read_nonempty b Hwf E) as (v & -> & _). rb_simpl.
      intros [= <- <-]. apply Hsame; auto.
  - destruct (Z.eq_dec (r b) (w b)) as [E | E].
    + unfold RRead. rewrite E, Z.eqb_refl. rb_simpl. intros [= <- <-]. apply Hsame; auto.
    + destruct (RRead_nonempty b Hwf E) as (v & -> & _). rb_simpl.
      intros [= <- <-]. apply Hsame; auto.
  - destruct (Peek b); rb_simpl; [| discriminate]. intros [= <- <-]. apply Hsame; auto.
  - destruct (RPeek b); rb_simpl; [| discriminate]. intros [= <- <-]. apply Hsame; auto.
  - destruct (PeekAll b); rb_simpl; [| discriminate]. intros [= <- <-]. apply Hsame; auto.
  - destruct (RPeekN n b); rb_simpl; [| discriminate]. intros [= <- <-]. apply Hsame; auto.
  - destruct (LPeekN n b); rb_simpl; [| discriminate]. intros [= <- <-]. apply Hsame; auto.
  - destruct (at_max b) eqn:Hc.
    + rewrite Write_discard by assumption. intros [= <- <-]. rb_simpl.
      splits; auto. right. exists v. auto.
    + rewrite Write_store by assumption.
      destruct (push v b) as [b1 |] eqn:Hp; rb_simpl; [| discriminate].
      intros [= <- <-].
      destruct (push_frame v b b1 Hwf Hp) as (Hi & Hm & Hd & Ho & Hs & _).
      apply Hsame; auto. lia.
  - destruct (at_max b) eqn:Hc.
    + rewrite Overwrite_at_max by assumption. intros [= <- <-]. apply Hsame; auto.
    + rewrite Overwrite_below by assumption.
      destruct (push v b) as [b1 |] eqn:Hp; rb_simpl; [| discriminate].
      intros [= <- <-].
      destruct (push_frame v b b1 Hwf Hp) as (Hi & Hm & Hd & Ho & Hs & _).
      apply Hsame; auto. lia.
  - destruct (Truncate n b) as [b1 |] eqn:Ht; rb_simpl; [| discriminate].
    intros [= <- <-].
    destruct (Truncate_frame n b b1 Hwf Ht) as (Hi & Hm & Hd & Ho & Hs).
    apply Hsame; auto.
  - pose proof (wf_initialSize b Hwf) as Hi.
    rewrite Reset_ok by lia. rb_simpl. intros [= <- <-]. rb_simpl.
    splits; auto. lia.
  - unfold SetMaxSize, minBufferSize.
    destruct (Z.eqb_spec n 0) as [-> | Hn0].
    + rb_simpl. intros [= <- <-]. rb_simpl. splits; auto.
      right. exists 0. auto.
    + destruct (Z.geb_spec n 2) as [Hge | Hlt].
      * rb_simpl.
        destruct (Truncate n (set_maxSize n b)) as [b1 |] eqn:Ht; rb_simpl; [| discriminate].
        intros [= <- <-].
        assert (Hwfm : wf (set_maxSize n b))
          by (apply wf_set_maxSize; [int_range | assumption]).
        pose proof (Truncate_frame n (set_maxSize n b) b1 Hwfm Ht) as Hfr.
        rb_simpl.
        destruct Hfr as (Hi & Hm & Hd & Ho & Hs).
        splits; auto. right. exists n. splits; auto; lia.
      * rb_simpl. intros [= <- <-]. apply Hsame; auto.
  - intros [= <- <-]. destruct fn as [f |]; simpl.
    + splits; auto. right. exists f. auto.
    + apply Hsame; auto.
Qed.

(** X10.  A public call that returns on a well-formed buffer never changes
    [initialSize]; only [SetMaxSize] changes [maxSize], and only to 0 or to
    a value of at least 2; only [SetOnDiscards] with a non-nil function
    changes the callback; and only a [Write] on a buffer at its bound
    changes the discard counter (by one) and calls the callback (once, on
    the value written).  [Overwrite], [Truncate] and [Reset] leave the
    counter and the world as they are. *)
Theorem operation_frame (o : op) (b b' : RingBufferOf) (ω ω' : W) :
  wf b -> op_args_int o -> exec o b ω = Ok (b', ω') ->
  initialSize b' = initialSize b /\
  (MaxSize b' = MaxSize b \/
   exists n, o = OpSetMaxSize n /\ (n = 0 \/ 2 <= n) /\ MaxSize b' = n) /\
  (onDiscards b' = onDiscards b \/
   exists f, o = OpSetOnDiscards (Some f) /\ onDiscards b' = Some f) /\
  ((Discards b' = Discards b /\ ω' = ω) \/
   exists v, o = OpWrite v /\ at_max b = true /\
             Discards b' = u64 (Discards b + 1) /\ ω' = notify b v ω).
Proof.
  intros Hwf Hint Hex.
  destruct (exec_frame o b b' ω ω' Hwf Hint Hex) as (Hi & _ & Hm & Ho & Hd).
  unfold MaxSize, Discards. auto.
Qed.

(** X11.  In every state reachable from a constructor through public calls
    that return, the capacity and [initialSize] are at least 2 and fit an
    [int], and [maxSize] is 0 (unbounded) or at least 2. *)
Theorem floor_invariant (b : RingBufferOf) :
  reachable b ->
  2 <= Capacity b <= int_max /\
  2 <= initialSize b <= int_max /\
  (MaxSize b = 0 \/ 2 <= MaxSize b <= int_max).
Proof.
  unfold Capacity, MaxSize. intros Hreach.
  pose proof (reachable_wf b Hreach) as Hwf.
  assert (Hfloor : 2 <= size b /\ (maxSize b = 0 \/ 2 <= maxSize b)).
  { clear Hwf.
    induction Hreach as [n ms b Hn Hms Hnew | o b b' ω ω' Hreach IH Ho Hex].
    - rewrite NewOf_ok in Hnew. injection Hnew as <-. rb_simpl.
      unfold minBufferSize. split; [lia |].
      destruct ms as [| m ms']; [left; reflexivity |].
      destruct (Z.leb_spec 2 m); [right; assumption | left; reflexivity].
    - destruct IH as [Hs Hm].
      pose proof (reachable_wf b Hreach) as Hwf.
      destruct (exec_frame o b b' ω ω' Hwf Ho Hex) as (_ & Hs' & Hm' & _).
      split; [auto |].
      destruct Hm' as [-> | (n & _ & Hn & ->)]; [assumption |].
      destruct Hn; [left | right]; assumption. }
  destruct Hwf as [_ _ _ Hs Hi Hm _]. destruct Hfloor as [Hs2 Hm2].
  splits; lia.
Qed.

(** X12.  On a well-formed bounded buffer that holds no more than [maxSize]
    elements, [Write], [Overwrite], [Read] and [RRead] return a buffer that
    holds no more than [maxSize] elements: the bound is never crossed by
    writing or reading. *)
Theorem bound_kept (v : T) (b : RingBufferOf) (ω : W) :
  wf b -> 0 < MaxSize b -> Len b <= MaxSize b ->
  (forall b' ω', Write v b ω = Ok (b', ω') ->
     Len b' <= MaxSize b' /\ Len b <= Len b' <= Len b + 1) /\
  (forall b' ω', Overwrite v b ω = Ok (b', ω') ->
     Len b' <= MaxSize b' /\ Len b <= Len b' <= Len b + 1) /\
  (forall x e b', Read b = Ok (x, e, b') ->
     Len b' <= MaxSize b' /\ Len b - 1 <= Len b' <= Len b) /\
  (forall x e b', RRead b = Ok (x, e, b') ->
     Len b' <= MaxSize b' /\ Len b - 1 <= Len b' <= Len b).
Proof.
  unfold MaxSize. intros Hwf Hm HL. splits.
  - intros b' ω'. destruct (at_max b) eqn:Hc.
    + rewrite Write_discard by assumption. intros [= <- _].
      unfold Len in *. rb_simpl. lia.
    + apply at_max_false in Hc.
      rewrite Write_store by (apply at_max_false; assumption).
      destruct (push v b) as [b1 |] eqn:Hp; rb_simpl; [| discriminate].
      intros [= <- _].
      destruct (push_frame v b b1 Hwf Hp) as (_ & Hm1 & _ & _ & _ & HL1). lia.
  - intros b' ω'. destruct (at_max b) eqn:Hc.
    + rewrite Overwrite_at_max by assumption. intros [= <- _].
      apply at_max_true in Hc.
      assert (Hne : r b <> w b).
      { intros E. apply Len_zero_iff in E; [lia | assumption]. }
      pose proof (wf_popped b Hwf) as Hwfp.
      pose proof (Len_popped b Hwf Hne) as HLp.
      pose proof (Len_range b Hwf) as HR.
      assert (Hroom : Len (popped b) + 1 < size (popped b))
        by (rewrite HLp; unfold popped; rb_simpl; lia).
      pose proof (contents_pushed v (popped b) Hwfp Hroom) as Hcp.
      pose proof (wf_pushed v (popped b) Hwfp) as Hwfq.
      rewrite (Len_contents _ Hwfq), Hcp.
      unfold len. rewrite length_app. simpl length.
      pose proof (Len_contents _ Hwfp) as HLc. unfold len in HLc.
      change (maxSize (pushed v (popped b))) with (maxSize b). lia.
    + apply at_max_false in Hc.
      rewrite Overwrite_below by (apply at_max_false; assumption).
      destruct (push v b) as [b1 |] eqn:Hp; rb_simpl; [| discriminate].
      intros [= <- _].
      destruct (push_frame v b b1 Hwf Hp) as (_ & Hm1 & _ & _ & _ & HL1). lia.
  - intros x e b'. destruct (Z.eq_dec (r b) (w b)) as [E | E].
    + rewrite Read_empty by assumption. intros [= _ _ <-]. lia.
    + destruct (Read_nonempty b Hwf E) as (v0 & -> & _). intros [= _ _ <-].
      rewrite Len_popped by assumption.
      change (maxSize (popped b)) with (maxSize b). lia.
  - intros x e b'. destruct (Z.eq_dec (r b) (w b)) as [E | E].
    + unfold RRead. rewrite E, Z.eqb_refl. intros [= _ _ <-]. lia.
    + destruct (RRead_nonempty b Hwf E) as (v0 & -> & _). intros [= _ _ <-].
      rewrite Len_unpushed by assumption.
      change (maxSize (unpushed b)) with (maxSize b). lia.
Qed.

(** ** No index out of range *)

(** X13.  On a well-formed buffer no public call panics on an index or a
    slice bound.  The only panic is the one of [make] in [grow]: a call
    panics exactly when it is a [Write] or an [Overwrite] below the bound
    that fills the last free slot of a store whose grown size does not fit
    an [int]. *)
Theorem panic_only_in_grow (o : op) (b : RingBufferOf) (ω : W) :
  wf b -> op_args_int o ->
  (exec o b ω = Panic <->
   exists v, (o = OpWrite v \/ o = OpOverwrite v) /\ at_max b = false /\
             Len b + 1 = Capacity b /\ int_max < grown (Capacity b)).
Proof.
  unfold Capacity. intros Hwf Hint. split.
  - destruct o; simpl in *.
    + destruct (Z.eq_dec (r b) (w b)) as [E | E].
      * rewrite Read_empty by assumption. discriminate.
      * destruct (Read_nonempty b Hwf E) as (v & -> & _). discriminate.
    + destruct (Z.eq_dec (r b) (w b)) as [E | E].
      * unfold RRead. rewrite E, Z.eqb_refl. discriminate.
      * destruct (RRead_nonempty b Hwf E) as (v & -> & _). discriminate.
    + destruct (Z.eq_dec (r b) (w b)) as [E | E].
      * unfold Peek. rewrite E, Z.eqb_refl. discriminate.
      * destruct (Peek_nonempty b Hwf E) as (v & -> & _). discriminate.
    + destruct (Z.eq_dec (r b) (w b)) as [E | E].
      * unfold RPeek. rewrite E, Z.eqb_refl. discriminate.
      * destruct (RPeek_nonempty b Hwf E) as (v & -> & _). discriminate.
    + rewrite PeekAll_contents by assumption. discriminate.
    + rewrite RPeekN_contents by assumption. discriminate.
    + rewrite LPeekN_contents by assumption. discriminate.
    + destruct (at_max b) eqn:Hc.
      * rewrite Write_discard by assumption. discriminate.
      * rewrite Write_store by assumption.
        destruct (push_total v b Hwf) as [(Hp & Hfull & Hover) | (b1 & -> & _)];
          [| discriminate].
        intros _. exists v. auto.
    + destruct (at_max b) eqn:Hc.
      * rewrite Overwrite_at_max by assumption. discriminate.
      * rewrite Overwrite_below by assumption.
        destruct (push_total v b Hwf) as [(Hp & Hfull & Hover) | (b1 & -> & _)];
          [| discriminate].
        intros _. exists v. auto.
    + destruct (Truncate_total n b Hwf) as (b1 & ->). discriminate.
    + rewrite Reset_ok by (pose proof (wf_initialSize b Hwf); lia). discriminate.
    + unfold SetMaxSize, minBufferSize.
      destruct (n =? 0); [discriminate |].
      destruct (Z.geb_spec n 2); [| discriminate].
      destruct (Truncate_total n (set_maxSize n b)) as (b1 & Ht);
        [apply wf_set_maxSize; [int_range | assumption] |].
      rb_simpl. rewrite Ht. discriminate.
    + discriminate.
  - intros (v & Ho & Hc & Hfull & Hover).
    destruct Ho as [-> | ->]; simpl.
    + rewrite Write_store, push_overflow by assumption. reflexivity.
    + rewrite Overwrite_below, push_overflow by assumption. reflexivity.
Qed.

(** ** The callback *)

(** X14.  [SetOnDiscards] changes nothing but the callback: the store, the
    sizes, the bound, the discard counter and both cursors are the ones
    before, on every buffer.  The callback becomes the function given, and
    a nil argument does not remove the callback installed: a [Write] at the
    bound after [SetOnDiscards fn] calls [fn] on the value when [fn] is not
    nil, and the callback there was (if any) when it is. *)
Theorem SetOnDiscards_then_Write (fn : option (T -> W -> W)) (v : T)
    (b : RingBufferOf) (ω : W) :
  buf (SetOnDiscards fn b) = buf b /\
  initialSize (SetOnDiscards fn b) = initialSize b /\
  Capacity (SetOnDiscards fn b) = Capacity b /\
  MaxSize (SetOnDiscards fn b) = MaxSize b /\
  Discards (SetOnDiscards fn b) = Discards b /\
  r (SetOnDiscards fn b) = r b /\
  w (SetOnDiscards fn b) = w b /\
  onDiscards (SetOnDiscards fn b) =
    match fn with
    | Some f => Some f
    | None => onDiscards b
    end /\
  PeekAll (SetOnDiscards fn b) = PeekAll b /\
  Len (SetOnDiscards fn b) = Len b /\
  (at_max b = true ->
   exists b',
     Write v (SetOnDiscards fn b) ω =
       Ok (b', match fn with
               | Some f => f v ω
               | None => notify b v ω
               end) /\
     Discards b' = u64 (Discards b + 1) /\ PeekAll b' = PeekAll b /\
     onDiscards b' = onDiscards (SetOnDiscards fn b)).
Proof.
  do 10 (split; [destruct fn; reflexivity |]).
  intros Hc.
  assert (Hc' : at_max (SetOnDiscards fn b) = true)
    by (destruct fn; exact Hc).
  eexists. split; [| splits].
  - rewrite Write_discard by assumption. f_equal. f_equal.
    destruct fn; reflexivity.
  - destruct fn; reflexivity.
  - destruct fn; reflexivity.
  - reflexivity.
Qed.

(** ** Unbounded buffers *)

(** X15.  [NewUnboundedOf n] returns an empty buffer of capacity [n]
    clamped up to 2 that never discards: any sequence of writes returns,
    unless a grown store cannot be allocated, a buffer holding exactly the
    values written, in order, with the discard counter still 0 and a
    capacity greater than their number. *)
Theorem unbounded_keeps_all (n : Z) (vs : list T) (ω : W) :
  is_int n ->
  exists b,
    NewUnboundedOf n = Ok b /\
    Capacity b = Z.max n minBufferSize /\ MaxSize b = 0 /\ Len b = 0 /\
    ((WriteAll vs b ω = Panic /\ int_max < 2 * len vs) \/
     (exists b',
        WriteAll vs b ω = Ok (b', ω) /\
        PeekAll b' = Ok vs /\ Len b' = len vs /\
        Discards b' = 0 /\ MaxSize b' = 0 /\
        len vs < Capacity b' /\ Capacity b <= Capacity b')).
Proof.
  intros Hn. unfold NewUnboundedOf.
  assert (Hnew := NewOf_ok n [0]).
  assert (Hwf : forall b, NewOf n [0] = Ok b -> wf b).
  { intros b. apply wf_NewOf; [assumption |].
    constructor; [int_range | constructor]. }
  destruct (NewOf n [0]) as [b |] eqn:E; [| discriminate].
  specialize (Hwf b eq_refl). injection Hnew as Hb.
  assert (Hr : r b = w b) by (rewrite Hb; reflexivity).
  assert (Hm : maxSize b = 0) by (rewrite Hb; reflexivity).
  assert (Hd : discards b = 0) by (rewrite Hb; reflexivity).
  assert (Hs : size b = Z.max n minBufferSize) by (rewrite Hb; reflexivity).
  pose proof (contents_empty b Hwf Hr) as Hnil.
  pose proof (Len_of_contents b [] Hwf Hnil) as HL0. unfold len in HL0. simpl in HL0.
  exists b. unfold Capacity, MaxSize, Discards.
  split; [reflexivity |]. split; [assumption |]. split; [assumption |].
  split; [assumption |].
  destruct (WriteAll_below vs b ω Hwf)
    as [(Hp & Hover) | (b' & Hw & Hwf' & Hc' & Hs' & Hm' & Hd' & _)];
    [left; assumption | left; split; [assumption | lia] |].
  right. exists b'. rewrite Hnil in Hc'. simpl in Hc'.
  pose proof (Len_of_contents b' vs Hwf' Hc') as HL'.
  pose proof (Len_range b' Hwf') as HR'.
  split; [assumption |].
  split; [rewrite PeekAll_contents, Hc' by assumption; reflexivity |].
  splits; first [assumption | congruence | lia].
Qed.

(** ** Overwrite always stores *)

(** X16.  On a well-formed buffer [Overwrite v] never drops [v]: when it
    returns, [v] is the newest element ([RPeek] returns it, [PeekAll] ends
    with it), the discard counter and the world are the ones before, and
    [Len] is the one before when the buffer was at its bound and one more
    otherwise.  It returns unless the grown store cannot be allocated. *)
Theorem Overwrite_newest (v : T) (b : RingBufferOf) (ω : W) :
  wf b ->
  (Overwrite v b ω = Panic /\ at_max b = false /\ Len b + 1 = Capacity b /\
   int_max < grown (Capacity b)) \/
  (exists b' l,
     Overwrite v b ω = Ok (b', ω) /\ wf b' /\
     PeekAll b' = Ok (l ++ [v]) /\
     RPeek b' = Ok (v, None) /\
     Discards b' = Discards b /\
     Len b' = (if at_max b then Len b else Len b + 1)).
Proof.
  unfold Capacity, Discards. intros Hwf.
  assert (Hlast : forall b' l, wf b' -> contents b' = l ++ [v] ->
            PeekAll b' = Ok (l ++ [v]) /\ RPeek b' = Ok (v, None) /\
            Len b' = len l + 1).
  { intros b' l Hwf' Hc'.
    pose proof (Len_of_contents b' _ Hwf' Hc') as HL'.
    unfold len in *. rewrite length_app in HL'. simpl in HL'.
    assert (Hne : r b' <> w b').
    { intros E. apply Len_zero_iff in E; [lia | assumption]. }
    destruct (RPeek_nonempty b' Hwf' Hne) as (v2 & Hrp & Hcp).
    rewrite Hc' in Hcp. apply app_inj_tail in Hcp as [_ <-].
    rewrite PeekAll_contents, Hc' by assumption. splits; auto. lia. }
  destruct (at_max b) eqn:Hc.
  - right. assert (Hc' := Hc). apply at_max_true in Hc'.
    assert (Hne : r b <> w b).
    { intros E. apply Len_zero_iff in E; [lia | assumption]. }
    pose proof (wf_popped b Hwf) as Hwfp.
    pose proof (Len_popped b Hwf Hne) as HLp.
    pose proof (Len_range b Hwf) as HR.
    assert (Hroom : Len (popped b) + 1 < size (popped b))
      by (rewrite HLp; unfold popped; rb_simpl; lia).
    pose proof (contents_pushed v (popped b) Hwfp Hroom) as Hcp.
    pose proof (wf_pushed v (popped b) Hwfp) as Hwfq.
    destruct (Hlast _ _ Hwfq Hcp) as (Hpa & Hrp & HL).
    exists (pushed v (popped b)), (contents (popped b)).
    rewrite Overwrite_at_max by assumption.
    splits; auto.
    rewrite HL, <- (Len_contents _ Hwfp). lia.
  - rewrite Overwrite_below by assumption.
    destruct (push_total v b Hwf)
      as [(Hp & Hfull & Hover) | (b1 & Hp & Hwf1 & Hc1 & _ & _ & _ & _ & Hd1 & _)].
    + left. rewrite Hp. auto.
    + right. rewrite Hp. rb_simpl.
      destruct (Hlast _ _ Hwf1 Hc1) as (Hpa & Hrp & HL).
      exists b1, (contents b). splits; auto.
      rewrite HL, <- (Len_contents _ Hwf). reflexivity.
Qed.

(** ** What grow does to the store *)

(** X17.  On a well-formed buffer [grow] returns, when the grown size fits
    an [int], a well-formed buffer whose read cursor is 0 and whose write
    cursor is the old capacity, and whose content is the whole old store
    read from the old read cursor round to it: the slots from the read
    cursor to the end, then the slots before it.  The fields other than the
    store, its size and the cursors are the ones before.  When the grown
    size does not fit, [grow] panics. *)
Theorem grow_linearizes (b : RingBufferOf) :
  wf b ->
  (int_max < grown (Capacity b) -> grow b = Panic) /\
  (grown (Capacity b) <= int_max ->
   exists b',
     grow b = Ok b' /\ wf b' /\
     r b' = 0 /\ w b' = Capacity b /\ Capacity b' = grown (Capacity b) /\
     Len b' = Capacity b /\
     PeekAll b' =
       Ok (drop (Z.to_nat (r b)) (buf b) ++ take (Z.to_nat (r b)) (buf b)) /\
     initialSize b' = initialSize b /\ MaxSize b' = MaxSize b /\
     Discards b' = Discards b /\ onDiscards b' = onDiscards b).
Proof.
  unfold Capacity, MaxSize, Discards. intros Hwf. split.
  - intros Hover. apply grow_overflow; [| assumption].
    destruct Hwf as [_ Hr _ Hs _ _ _]. lia.
  - intros Hfit.
    assert (Hg : grow b = Ok _)
      by (destruct Hwf as [Hb Hr _ Hs _ _ _]; apply grow_ok; assumption).
    pose proof (wf_grow b _ Hwf Hg) as Hwf'.
    eexists. split; [exact Hg |]. split; [exact Hwf' |].
    pose proof (grown_gt (size b)) as Hgt.
    destruct Hwf as [Hb Hr Hw Hs _ _ _]. unfold len in Hb.
    assert (Hc : contents
                   (mkRingBufferOf
                      (drop (Z.to_nat (r b)) (buf b) ++ take (Z.to_nat (r b)) (buf b)
                         ++ replicate (Z.to_nat (grown (size b) - size b)) zero)
                      (initialSize b) (grown (size b)) (maxSize b) (discards b) 0
                      (size b) (onDiscards b))
                 = drop (Z.to_nat (r b)) (buf b) ++ take (Z.to_nat (r b)) (buf b)).
    { unfold contents. rb_simpl.
      destruct (Z.ltb_spec (size b) 0); [lia |].
      change (Z.to_nat 0) with O. rewrite drop_0, Z.sub_0_r, app_assoc.
      apply take_app_length'.
      rewrite length_app, length_drop, length_take. lia. }
    rewrite PeekAll_contents, (Len_contents _ Hwf'), Hc by assumption.
    rb_simpl. splits; auto.
    unfold len. rewrite length_app, length_drop, length_take. lia.
Qed.

(** ** SetMaxSize where it works *)

(** X18.  [SetMaxSize] on a well-formed buffer returns the bound in force
    after the call.  With 0 the buffer becomes unbounded and with a value
    below 2 other than 0 nothing changes; in both cases the content stays.
    With [n >= 2] the bound becomes [n]; the content stays when it has no
    more than [n] elements, and is cut to its last [n] elements when
    [Truncate] takes its reallocating branch, its wrapped branch or has the
    read cursor at slot 0. *)
Theorem SetMaxSize_effect (n : Z) (b : RingBufferOf) :
  wf b -> is_int n ->
  exists b' l,
    PeekAll b = Ok l /\
    SetMaxSize n b = Ok (MaxSize b', b') /\
    MaxSize b' = (if n =? 0 then 0 else if 2 <=? n then n else MaxSize b) /\
    Discards b' = Discards b /\ onDiscards b' = onDiscards b /\
    initialSize b' = initialSize b /\
    (n < 2 -> PeekAll b' = Ok l /\ Capacity b' = Capacity b) /\
    (2 <= n -> Len b <= n -> PeekAll b' = Ok l /\ Capacity b' = Capacity b) /\
    (2 <= n < Len b -> 2 * n < Capacity b \/ w b < r b \/ r b = 0 ->
     PeekAll b' = Ok (drop (Z.to_nat (Len b - n)) l) /\ Len b' = n).
Proof.
  unfold MaxSize, Discards, Capacity. intros Hwf Hn.
  destruct (SetMaxSize_cases n b) as (H0 & Hlow & Hhigh & _).
  unfold minBufferSize in *.
  pose proof (PeekAll_contents b Hwf) as Hpa.
  destruct (Z.eqb_spec n 0) as [-> | Hn0].
  { exists (set_maxSize 0 b), (contents b). rewrite H0 by reflexivity.
    splits; auto; try lia;
      try (intros; split; [rewrite <- Hpa; reflexivity | reflexivity]). }
  destruct (Z.leb_spec 2 n) as [Hge | Hlt].
  2: { exists b, (contents b). rewrite Hlow by lia.
       splits; auto; try lia. }
  assert (Hwfm : wf (set_maxSize n b))
    by (apply wf_set_maxSize; [int_range | assumption]).
  destruct (Truncate_total n (set_maxSize n b) Hwfm) as (b1 & Ht).
  destruct (Truncate_frame n _ b1 Hwfm Ht) as (Hi & Hm & Hd & Ho & _).
  rb_simpl.
  exists b1, (contents b). rewrite Hhigh, Ht by lia. rb_simpl.
  rewrite Hm. splits; auto; try lia.
  - intros _ HL.
    change (Len b) with (Len (set_maxSize n b)) in HL.
    rewrite Truncate_noop in Ht by lia. injection Ht as <-.
    split; [rewrite <- Hpa; reflexivity | reflexivity].
  - intros HL Hcase.
    pose proof (realloc_test n (set_maxSize n b) Hwfm) as [Hbig _]; [lia |].
    destruct (Truncate_keeps_last n (set_maxSize n b) Hwfm) as (b2 & Ht2 & Hc2).
    + change (Len (set_maxSize n b)) with (Len b). lia.
    + rb_simpl. destruct Hcase as [H | [H | H]]; auto.
    + assert (b2 = b1) by congruence. subst b2.
      pose proof (wf_Truncate n _ b1 Hwfm Ht) as Hwf1.
      change (Len (set_maxSize n b)) with (Len b) in Hc2.
      change (contents (set_maxSize n b)) with (contents b) in Hc2.
      split; [rewrite PeekAll_contents, Hc2 by assumption; reflexivity |].
      rewrite (Len_contents b1 Hwf1), Hc2. unfold len. rewrite length_drop.
      pose proof (Len_contents b Hwf) as HLc. unfold len in HLc. lia.
Qed.

(** ** Memory of a bounded buffer *)

(** X19.  A bounded buffer within its bound does not grow its store beyond
    twice the bound: after a [Write] or an [Overwrite] the capacity is the
    one before, or at most [2 * maxSize]; and neither panics when
    [2 * maxSize] fits an [int]. *)
Theorem bounded_capacity (v : T) (b : RingBufferOf) (ω : W) :
  wf b -> 0 < MaxSize b -> Len b <= MaxSize b ->
  (forall b' ω', Write v b ω = Ok (b', ω') ->
     Capacity b' = Capacity b \/
     (Capacity b <= MaxSize b /\ Capacity b < Capacity b' <= 2 * MaxSize b)) /\
  (forall b' ω', Overwrite v b ω = Ok (b', ω') ->
     Capacity b' = Capacity b \/
     (Capacity b <= MaxSize b /\ Capacity b < Capacity b' <= 2 * MaxSize b)) /\
  (2 * MaxSize b <= int_max ->
   Write v b ω <> Panic /\ Overwrite v b ω <> Panic).
Proof.
  unfold MaxSize, Capacity. intros Hwf Hm HL.
  pose proof (Len_range b Hwf) as HR.
  pose proof (grown_le_double (size b)) as Hg2.
  pose proof (grown_gt (size b)) as Hgt.
  assert (Hpush : at_max b = false -> forall b', push v b = Ok b' ->
            size b' = size b \/
            (size b <= maxSize b /\ size b < size b' <= 2 * maxSize b)).
  { intros Hc b' Hp. apply at_max_false in Hc.
    destruct (push_total v b Hwf)
      as [(Hp' & _) | (b1 & Hp' & _ & _ & Hroom & Hfull & _)]; [congruence |].
    assert (b1 = b') by congruence. subst b1.
    destruct (Z.eq_dec (Len b + 1) (size b)) as [E | E].
    - right. rewrite (Hfull E). unfold regrown. rb_simpl. lia.
    - left. rewrite Hroom by lia. reflexivity. }
  splits.
  - intros b' ω'. destruct (at_max b) eqn:Hc.
    + rewrite Write_discard by assumption. intros [= <- _]. left. reflexivity.
    + rewrite Write_store by assumption.
      destruct (push v b) as [b1 |] eqn:Hp; rb_simpl; [| discriminate].
      intros [= <- _]. apply Hpush; auto.
  - intros b' ω'. destruct (at_max b) eqn:Hc.
    + rewrite Overwrite_at_max by assumption. intros [= <- _]. left. reflexivity.
    + rewrite Overwrite_below by assumption.
      destruct (push v b) as [b1 |] eqn:Hp; rb_simpl; [| discriminate].
      intros [= <- _]. apply Hpush; auto.
  - intros Hfit.
    assert (Hnp : at_max b = false -> push v b <> Panic).
    { intros Hc Hp. apply at_max_false in Hc.
      destruct (push_total v b Hwf) as [(_ & Hfull & Hover) | (b1 & Hp' & _)];
        [lia | congruence]. }
    destruct (at_max b) eqn:Hc.
    + rewrite Write_discard, Overwrite_at_max by assumption. split; discriminate.
    + rewrite Write_store, Overwrite_below by assumption.
      specialize (Hnp eq_refl).
      destruct (push v b); [split; discriminate | contradiction].
Qed.

End RingBuffer.

(** * Concrete buffers of integers

    The element type is [Z], its zero value 0, and the world is the list of
    the values the discard callback was called with, oldest first. *)

Ltac wf_concrete :=
  split; cbn; unfold int_max; first [reflexivity | lia].

(** C8 (as stated, at initial size 1).  [NewFixedOf 1] returns an unbounded
    buffer: its maximum size is 0, not 1. *)
Lemma NewFixedOf_one_unbounded :
  exists b : RingBufferOf (T := Z) (W := list Z),
    NewFixedOf 0 1 = Ok b /\ Capacity b = 2 /\ MaxSize b = 0 /\ MaxSize b <> 1.
Proof.
  eexists. split; [reflexivity |]. cbn. repeat split. discriminate.
Qed.

Lemma empty_read_error_witness :
  let b0 := mkRingBufferOf (T := Z) (W := list Z) [7; 0; 0] 3 3 0 0 1 1 None in
  let b1 := mkRingBufferOf (T := Z) (W := list Z) [7; 0; 0] 3 3 0 0 0 1 None in
  (wf b0 /\ r b0 = w b0 /\ Len b0 = 0 /\
   Read 0 b0 = Ok (0, Some ErrIsEmpty, b0) /\
   RRead 0 b0 = Ok (0, Some ErrIsEmpty, b0) /\
   Peek 0 b0 = Ok (0, Some ErrIsEmpty) /\
   RPeek 0 b0 = Ok (0, Some ErrIsEmpty)) /\
  (wf b1 /\ r b1 <> w b1 /\
   (exists v b', Read 0 b1 = Ok (v, None, b') /\ PeekAll b1 = Ok (v :: contents b')) /\
   (exists v b', RRead 0 b1 = Ok (v, None, b') /\ PeekAll b1 = Ok (contents b' ++ [v]))).
Proof.
  intros b0 b1. split.
  - assert (Hwf : wf b0) by wf_concrete.
    assert (E : r b0 = w b0) by reflexivity.
    destruct (empty_read_error 0 b0 Hwf) as (Hiff & Hemp & _).
    destruct (Hemp E) as (Hrd & Hrr & Hpk & Hrp).
    split; [exact Hwf |]. split; [exact E |].
    split; [exact (proj2 Hiff E) |].
    split; [exact Hrd |]. split; [exact Hrr |]. split; [exact Hpk | exact Hrp].
  - assert (Hwf : wf b1) by wf_concrete.
    assert (Hne : r b1 <> w b1) by (cbn; discriminate).
    destruct (empty_read_error 0 b1 Hwf) as (_ & _ & Hnon).
    destruct (Hnon Hne) as (Hrd & Hrr & _).
    split; [exact Hwf |]. split; [exact Hne |].
    split; [exact Hrd | exact Hrr].
Defined.

Lemma Overwrite_Write_unbounded_witness :
  let b0 := mkRingBufferOf (T := Z) (W := list Z) [7; 0; 0] 3 3 0 0 0 1 None in
  maxSize b0 = 0 /\ Overwrite 0 8 b0 [] = Write 0 8 b0 [].
Proof.
  intros b0. split; [reflexivity |].
  apply (Overwrite_Write_unbounded 0 8 b0 []). reflexivity.
Defined.

Lemma growth_schedule_witness :
  let b0 := mkRingBufferOf (T := Z) (W := list Z) [7; 8; 0] 3 3 0 0 0 2 None in
  wf b0 /\
  (forall b' ω', Write 0 9 b0 [] = Ok (b', ω') ->
     grow 0 (pushed 9 b0) = Ok b' /\ Len b0 + 1 = Capacity b0 /\ Capacity b' = 6).
Proof.
  intros b0.
  assert (Hwf : wf b0) by wf_concrete.
  split; [exact Hwf |].
  destruct (growth_schedule 0 9 b0 [] Hwf) as (_ & _ & Hw & _).
  intros b' ω' Hb'. apply (Hw b' ω' Hb').
Defined.

Lemma cursor_capacity_invariant_witness :
  let b0 := mkRingBufferOf (T := Z) (W := list Z) [0; 0] 2 2 0 0 0 0 None in
  let b1 := mkRingBufferOf (T := Z) (W := list Z) [1; 0] 2 2 0 0 0 1 None in
  let b2 := mkRingBufferOf (T := Z) (W := list Z) [1; 2; 0; 0] 2 4 0 0 0 2 None in
  NewOf 0 2 [] = Ok b0 /\ Write 0 1 b0 [] = Ok (b1, []) /\
  reachable 0 b1 /\ Len b1 = (w b1 - r b1 + Capacity b1) mod Capacity b1 /\
  Capacity b1 >= Len b1 + 1 /\
  Write 0 2 b1 [] = Ok (b2, []) /\
  r b2 <> w b2 /\ Len b2 = Len b1 + 1 /\
  exists l, PeekAll b1 = Ok l /\ PeekAll b2 = Ok (l ++ [2]).
Proof.
  intros b0 b1 b2.
  assert (Hnew : NewOf (W := list Z) 0 2 [] = Ok b0) by reflexivity.
  assert (Hw1 : Write 0 1 b0 [] = Ok (b1, [])) by reflexivity.
  assert (Hw2 : Write 0 2 b1 [] = Ok (b2, [])) by reflexivity.
  assert (Hreach : reachable 0 b1).
  { apply (reach_step 0 (OpWrite 1) b0 b1 [] []).
    - apply (reach_new 0 2 []).
      + unfold is_int, int_min, int_max. lia.
      + constructor.
      + exact Hnew.
    - exact I.
    - exact Hw1. }
  destruct (cursor_capacity_invariant 0 b1 Hreach)
    as (_ & _ & _ & Hlen & Hcap & _ & _ & _ & Hwr & _).
  split; [exact Hnew |]. split; [exact Hw1 |]. split; [exact Hreach |].
  split; [exact Hlen |]. split; [exact Hcap |]. split; [exact Hw2 |].
  exact (Hwr 2 [] b2 [] Hw2).
Defined.

Lemma growth_preserves_order_witness :
  let b0 := mkRingBufferOf (T := Z) (W := list Z) [0; 0] 2 2 0 0 0 0 None in
  wf b0 /\
  exists b',
    WriteAll 0 [1; 2; 3] b0 [] = Ok (b', []) /\ Capacity b' > 2 /\
    PeekAll b' = Ok [1; 2; 3] /\
    forall fuel, (length [1; 2; 3] < fuel)%nat ->
      exists b'', drain 0 fuel b' = Ok (Some ([1; 2; 3], b'')) /\
                  Read 0 b'' = Ok (0, Some ErrIsEmpty, b'').
Proof.
  intros b0.
  assert (Hwf : wf b0) by wf_concrete.
  split; [exact Hwf |].
  destruct (growth_preserves_order 0 [1; 2; 3] b0 [] 2 Hwf) as [[_ Hover] | Hok];
    try reflexivity.
  - vm_compute in Hover. discriminate Hover.
  - exact Hok.
Defined.

Lemma bounded_discard_witness :
  let b0 := mkRingBufferOf (T := Z) (W := list Z) [0; 0] 2 2 2 0 0 0
              (Some (fun v ω => ω ++ [v])) in
  wf b0 /\
  exists b',
    WriteAll 0 [1; 2; 3; 4; 5] b0 [] = Ok (b', [3; 4; 5]) /\
    Len b' = 2 /\ PeekAll b' = Ok [1; 2] /\ Discards b' = 3.
Proof.
  intros b0.
  assert (Hwf : wf b0) by wf_concrete.
  split; [exact Hwf |].
  destruct (bounded_discard 0 [1; 2; 3; 4; 5] b0 [] (fun v ω => ω ++ [v]) 2 3 Hwf)
    as [[[_ Hover] | (b' & Hw & _ & HL & Hp & Hd & _)] _];
    try first [reflexivity | (cbn; lia)].
  - vm_compute in Hover. discriminate Hover.
  - exists b'. repeat split; assumption.
Defined.

Lemma overwrite_semantics_witness :
  let b0 := mkRingBufferOf (T := Z) (W := list Z) [0; 0] 2 2 2 0 0 0
              (Some (fun v ω => ω ++ [v])) in
  wf b0 /\
  exists b',
    OverwriteAll 0 [1; 2; 3; 4; 5] b0 [] = Ok (b', []) /\
    PeekAll b' = Ok [4; 5] /\ Len b' = 2 /\ Discards b' = 0.
Proof.
  intros b0.
  assert (Hwf : wf b0) by wf_concrete.
  split; [exact Hwf |].
  destruct (overwrite_semantics 0 [1; 2; 3; 4; 5] b0 [] 2 3 Hwf)
    as [[[_ Hover] | (b' & Hw & Hp & HL & Hd)] _];
    try first [reflexivity | (cbn; lia)].
  - vm_compute in Hover. discriminate Hover.
  - exists b'. repeat split; assumption.
Defined.

(** C1 (failing input).  A buffer of capacity 10 is built by [NewOf], two
    values are written and read back, then seven values are written: the
    cursors are 2 and 9, unwrapped.  [Truncate 5] takes the in-place branch
    and leaves the read cursor at 2: all seven elements are still there,
    where the last five were to remain. *)
Theorem Truncate_in_place_keeps_seven :
  let b0 := mkRingBufferOf (T := Z) (W := list Z)
              [0; 0; 0; 0; 0; 0; 0; 0; 0; 0] 10 10 0 0 0 0 None in
  let b1 := mkRingBufferOf (T := Z) (W := list Z)
              [1; 2; 3; 4; 5; 6; 7; 8; 9; 0] 10 10 0 0 2 9 None in
  NewOf 0 10 [] = Ok b0 /\
  run 0 [OpWrite 1; OpWrite 2; OpRead; OpRead; OpWrite 3; OpWrite 4; OpWrite 5;
         OpWrite 6; OpWrite 7; OpWrite 8; OpWrite 9] b0 [] = Ok (b1, []) /\
  PeekAll b1 = Ok [3; 4; 5; 6; 7; 8; 9] /\
  Len b1 = 7 /\
  exists b2,
    Truncate 0 5 b1 = Ok b2 /\
    r b2 = 2 /\ w b2 = 9 /\
    PeekAll b2 = Ok [3; 4; 5; 6; 7; 8; 9] /\
    PeekAll b2 <> Ok [5; 6; 7; 8; 9] /\
    Len b2 = 7.
Proof.
  intros b0 b1.
  split; [vm_compute; reflexivity |]. split; [vm_compute; reflexivity |].
  split; [vm_compute; reflexivity |]. split; [vm_compute; reflexivity |].
  exists b1.
  split; [vm_compute; reflexivity |]. split; [reflexivity |].
  split; [reflexivity |]. split; [vm_compute; reflexivity |].
  split; [vm_compute; discriminate | vm_compute; reflexivity].
Qed.

(** C5 (failing input).  On the same buffer, cursors 2 and 9 in a store of
    10 slots holding seven elements, [SetMaxSize 5] returns 5 and sets the
    bound to 5, but the buffer still holds seven elements. *)
Theorem SetMaxSize_leaves_seven :
  let b0 := mkRingBufferOf (T := Z) (W := list Z)
              [0; 0; 0; 0; 0; 0; 0; 0; 0; 0] 10 10 0 0 0 0 None in
  let b1 := mkRingBufferOf (T := Z) (W := list Z)
              [1; 2; 3; 4; 5; 6; 7; 8; 9; 0] 10 10 0 0 2 9 None in
  NewOf 0 10 [] = Ok b0 /\
  run 0 [OpWrite 1; OpWrite 2; OpRead; OpRead; OpWrite 3; OpWrite 4; OpWrite 5;
         OpWrite 6; OpWrite 7; OpWrite 8; OpWrite 9] b0 [] = Ok (b1, []) /\
  Len b1 = 7 /\
  exists b2,
    SetMaxSize 0 5 b1 = Ok (5, b2) /\
    MaxSize b2 = 5 /\
    Len b2 = 7 /\
    ~ Len b2 <= 5 /\
    PeekAll b2 = Ok [3; 4; 5; 6; 7; 8; 9].
Proof.
  intros b0 b1.
  split; [vm_compute; reflexivity |]. split; [vm_compute; reflexivity |].
  split; [vm_compute; reflexivity |].
  exists (set_maxSize 5 b1).
  split; [vm_compute; reflexivity |]. split; [reflexivity |].
  split; [vm_compute; reflexivity |].
  split; [| vm_compute; reflexivity].
  vm_compute. intros H. apply H. reflexivity.
Qed.

(** ** Instances of the further properties *)

Ltac zcmp :=
  vm_compute;
  first [ reflexivity
        | (let H := fresh in intro H; discriminate H)
        | (split; first [reflexivity | (let H := fresh in intro H; discriminate H)]) ].

Lemma fifo_order_witness :
  let b0 := mkRingBufferOf (T := Z) (W := list Z) [7; 8; 0] 3 3 0 0 0 2 None in
  wf b0 /\
  exists b',
    WriteAll 0 [1; 2; 3] b0 [] = Ok (b', []) /\
    PeekAll b' = Ok [7; 8; 1; 2; 3] /\ Len b' = 5.
Proof.
  intros b0.
  assert (Hwf : wf b0) by wf_concrete.
  split; [exact Hwf |].
  destruct (fifo_order 0 [1; 2; 3] b0 [] Hwf) as [[_ Hover] | (l & b' & Hl & Hw & Hp & HL & _)].
  - left. reflexivity.
  - vm_compute in Hover. discriminate Hover.
  - vm_compute in Hl. injection Hl as <-.
    exists b'. split; [exact Hw |]. split; [exact Hp | exact HL].
Defined.

Lemma lifo_order_witness :
  let b0 := mkRingBufferOf (T := Z) (W := list Z) [7; 8; 0] 3 3 0 0 0 2 None in
  wf b0 /\
  exists b', rdrain 0 3 b0 = Ok (Some ([8; 7], b')) /\ IsEmpty b' = true.
Proof.
  intros b0.
  assert (Hwf : wf b0) by wf_concrete.
  split; [exact Hwf |].
  destruct (lifo_order 0 3 b0 Hwf) as (l & b' & Hl & Hr & He & _).
  - vm_compute. lia.
  - vm_compute in Hl. injection Hl as <-.
    exists b'. split; [exact Hr | exact He].
Defined.

Lemma Write_RRead_roundtrip_witness :
  let b0 := mkRingBufferOf (T := Z) (W := list Z) [7; 8; 0] 3 3 0 0 0 2 None in
  wf b0 /\ at_max b0 = false /\
  exists b1 b2,
    Write 0 9 b0 [] = Ok (b1, []) /\ RPeek 0 b1 = Ok (9, None) /\
    RRead 0 b1 = Ok (9, None, b2) /\ PeekAll b2 = PeekAll b0.
Proof.
  intros b0.
  assert (Hwf : wf b0) by wf_concrete.
  assert (Hc : at_max b0 = false) by reflexivity.
  split; [exact Hwf |]. split; [exact Hc |].
  destruct (Write_RRead_roundtrip 0 9 b0 [] Hwf Hc)
    as [(_ & _ & Hover) | (b1 & b2 & Hw & _ & Hp & Hr & Hall & _)].
  - vm_compute in Hover. discriminate Hover.
  - exists b1, b2. repeat split; assumption.
Defined.

Lemma RRead_Write_roundtrip_witness :
  let b0 := mkRingBufferOf (T := Z) (W := list Z) [7; 8; 0] 3 3 0 0 0 2 None in
  wf b0 /\ r b0 <> w b0 /\
  exists v b1, RRead 0 b0 = Ok (v, None, b1) /\ Write 0 v b1 [] = Ok (b0, []).
Proof.
  intros b0.
  assert (Hwf : wf b0) by wf_concrete.
  assert (Hne : r b0 <> w b0) by (cbn; lia).
  split; [exact Hwf |]. split; [exact Hne |].
  destruct (RRead_Write_roundtrip 0 b0 [] Hwf Hne) as (v & b1 & Hr & _ & Hw).
  - left. reflexivity.
  - exists v, b1. split; assumption.
Defined.

Lemma peek_n_elements_witness :
  let b0 := mkRingBufferOf (T := Z) (W := list Z) [3; 0; 1; 2] 4 4 0 0 2 1 None in
  wf b0 /\
  exists l, PeekAll b0 = Ok l /\ LPeekN 2 b0 = Ok (take 2 l) /\
            RPeekN 2 b0 = Ok (drop (length l - 2) l).
Proof.
  intros b0.
  assert (Hwf : wf b0) by wf_concrete.
  split; [exact Hwf |].
  destruct (peek_n_elements 2 b0 Hwf) as (l & Hl & _ & Hf & Hb & _).
  exists l. repeat split; assumption.
Defined.

Lemma Reset_restores_initial_witness :
  let b0 := mkRingBufferOf (T := Z) (W := list Z) [7; 8; 9; 0; 0; 0] 3 6 0 4 0 3 None in
  wf b0 /\
  exists b', Reset 0 b0 = Ok b' /\ Capacity b' = 3 /\ Len b' = 0 /\ Discards b' = 4.
Proof.
  intros b0.
  assert (Hwf : wf b0) by wf_concrete.
  split; [exact Hwf |].
  destruct (Reset_restores_initial 0 b0 Hwf)
    as (b' & Hr & _ & Hc & _ & _ & _ & HL & _ & _ & _ & Hd & _).
  exists b'. repeat split; assumption.
Defined.

Lemma Truncate_last_n_witness :
  let b0 := mkRingBufferOf (T := Z) (W := list Z) [1; 2; 3; 4; 0] 5 5 0 0 0 4 None in
  wf b0 /\
  exists b', Truncate 0 2 b0 = Ok b' /\ PeekAll b' = Ok [3; 4] /\ Len b' = 2.
Proof.
  intros b0.
  assert (Hwf : wf b0) by wf_concrete.
  split; [exact Hwf |].
  destruct (Truncate_last_n 0 2 b0 Hwf) as [_ Hlast]; [lia |].
  destruct Hlast as (l & b' & Hl & Ht & _ & Hp & HL & _).
  - zcmp.
  - left. zcmp.
  - vm_compute in Hl. injection Hl as <-.
    exists b'. repeat split; assumption.
Defined.

Lemma Truncate_in_place_unwrapped_witness :
  let b1 := mkRingBufferOf (T := Z) (W := list Z)
              [1; 2; 3; 4; 5; 6; 7; 8; 9; 0] 10 10 0 0 2 9 None in
  wf b1 /\
  exists b', Truncate 0 5 b1 = Ok b' /\ r b' = 2 /\ Len b' = 7.
Proof.
  intros b1.
  assert (Hwf : wf b1) by wf_concrete.
  split; [exact Hwf |].
  destruct (Truncate_in_place_unwrapped 0 5 b1 Hwf)
    as (b' & Ht & _ & Hr & _ & _ & _ & HL & _).
  - zcmp.
  - zcmp.
  - zcmp.
  - cbn. lia.
  - exists b'. repeat split; assumption.
Defined.

Lemma operation_frame_witness :
  let b0 := mkRingBufferOf (T := Z) (W := list Z) [7; 8; 0] 3 3 2 0 0 2
              (Some (fun v ω => ω ++ [v])) in
  let b1 := mkRingBufferOf (T := Z) (W := list Z) [7; 8; 0] 3 3 2 1 0 2
              (Some (fun v ω => ω ++ [v])) in
  wf b0 /\ exec 0 (OpWrite 9) b0 [] = Ok (b1, [9]) /\
  initialSize b1 = initialSize b0.
Proof.
  intros b0 b1.
  assert (Hwf : wf b0) by wf_concrete.
  assert (Hex : exec 0 (OpWrite 9) b0 [] = Ok (b1, [9])) by reflexivity.
  split; [exact Hwf |]. split; [exact Hex |].
  exact (proj1 (operation_frame 0 (OpWrite 9) b0 b1 [] [9] Hwf I Hex)).
Defined.

Lemma floor_invariant_witness :
  let b1 := mkRingBufferOf (T := Z) (W := list Z) [1; 0; 0] 3 3 4 0 0 1 None in
  reachable 0 b1 /\ 2 <= Capacity b1 <= int_max.
Proof.
  intros b1.
  assert (Hreach : reachable 0 b1).
  { apply (reach_step 0 (OpWrite 1)
             (mkRingBufferOf [0; 0; 0] 3 3 4 0 0 0 None) b1 [] []).
    - apply (reach_new 0 3 [4]).
      + unfold is_int, int_min, int_max. lia.
      + repeat constructor; unfold int_min, int_max; lia.
      + reflexivity.
    - exact I.
    - reflexivity. }
  split; [exact Hreach |].
  exact (proj1 (floor_invariant 0 b1 Hreach)).
Defined.

Lemma bound_kept_witness :
  let b0 := mkRingBufferOf (T := Z) (W := list Z) [7; 8; 0] 3 3 2 0 0 2 None in
  wf b0 /\
  forall b' ω', Overwrite 0 9 b0 [] = Ok (b', ω') -> Len b' <= MaxSize b'.
Proof.
  intros b0.
  assert (Hwf : wf b0) by wf_concrete.
  split; [exact Hwf |].
  destruct (bound_kept 0 9 b0 [] Hwf) as (_ & Ho & _).
  - zcmp.
  - zcmp.
  - intros b' ω' H. exact (proj1 (Ho b' ω' H)).
Defined.

Lemma panic_only_in_grow_witness :
  let b0 := mkRingBufferOf (T := Z) (W := list Z) [7; 8; 0] 3 3 0 0 0 2 None in
  wf b0 /\ exec 0 (OpWrite 9) b0 [] <> Panic.
Proof.
  intros b0.
  assert (Hwf : wf b0) by wf_concrete.
  split; [exact Hwf |].
  intros Hp.
  destruct (proj1 (panic_only_in_grow 0 (OpWrite 9) b0 [] Hwf I) Hp)
    as (v & _ & _ & _ & Hover).
  vm_compute in Hover. discriminate Hover.
Defined.

Lemma SetOnDiscards_then_Write_witness :
  let b0 := mkRingBufferOf (T := Z) (W := list Z) [7; 8; 0] 3 3 2 0 0 2
              (Some (fun v ω => ω ++ [v])) in
  at_max b0 = true /\
  initialSize (SetOnDiscards None b0) = initialSize b0 /\
  onDiscards (SetOnDiscards None b0) = onDiscards b0 /\
  (exists b', Write 0 9 (SetOnDiscards None b0) [] = Ok (b', [9])) /\
  (exists b', Write 0 9 (SetOnDiscards (Some (fun v ω => v :: ω)) b0) [5] = Ok (b', [9; 5])).
Proof.
  intros b0.
  assert (Hc : at_max b0 = true) by reflexivity.
  split; [exact Hc |].
  destruct (SetOnDiscards_then_Write 0 None 9 b0 [])
    as (_ & Hi & _ & _ & _ & _ & _ & Ho & _ & _ & Hw).
  destruct (SetOnDiscards_then_Write 0 (Some (fun v ω => v :: ω)) 9 b0 [5])
    as (_ & _ & _ & _ & _ & _ & _ & _ & _ & _ & Hw').
  split; [exact Hi |]. split; [exact Ho |].
  split.
  - destruct (Hw Hc) as (b' & Hb' & _). exists b'. exact Hb'.
  - destruct (Hw' Hc) as (b' & Hb' & _). exists b'. exact Hb'.
Defined.

Lemma unbounded_keeps_all_witness :
  is_int 1 /\
  exists b : RingBufferOf (T := Z) (W := list Z),
    NewUnboundedOf 0 1 = Ok b /\ Capacity b = 2 /\
    exists b', WriteAll 0 [1; 2; 3] b [] = Ok (b', []) /\ PeekAll b' = Ok [1; 2; 3].
Proof.
  assert (Hn : is_int 1) by (unfold is_int, int_min, int_max; lia).
  split; [exact Hn |].
  destruct (unbounded_keeps_all (W := list Z) 0 1 [1; 2; 3] [] Hn)
    as (b & Hnew & Hcap & _ & _ & [[_ Hover] | (b' & Hw & Hp & _)]).
  - vm_compute in Hover. discriminate Hover.
  - exists b. split; [exact Hnew |]. split; [exact Hcap |].
    exists b'. split; assumption.
Defined.

Lemma Overwrite_newest_witness :
  let b0 := mkRingBufferOf (T := Z) (W := list Z) [7; 8; 0] 3 3 2 0 0 2 None in
  wf b0 /\
  exists b' l, Overwrite 0 9 b0 [] = Ok (b', []) /\ PeekAll b' = Ok (l ++ [9]) /\
               RPeek 0 b' = Ok (9, None) /\ Len b' = 2.
Proof.
  intros b0.
  assert (Hwf : wf b0) by wf_concrete.
  split; [exact Hwf |].
  destruct (Overwrite_newest 0 9 b0 [] Hwf)
    as [(_ & Hc & _) | (b' & l & Ho & _ & Hp & Hr & _ & HL)].
  - vm_compute in Hc. discriminate Hc.
  - exists b', l. repeat split; assumption.
Defined.

Lemma grow_linearizes_witness :
  let b0 := mkRingBufferOf (T := Z) (W := list Z) [3; 1; 2] 3 3 0 0 1 1 None in
  wf b0 /\
  exists b', grow 0 b0 = Ok b' /\ Capacity b' = 6 /\ PeekAll b' = Ok [1; 2; 3].
Proof.
  intros b0.
  assert (Hwf : wf b0) by wf_concrete.
  split; [exact Hwf |].
  destruct (grow_linearizes 0 b0 Hwf) as [_ Hok].
  destruct Hok as (b' & Hg & _ & _ & _ & Hc & _ & Hp & _).
  - zcmp.
  - exists b'. repeat split; assumption.
Defined.

Lemma SetMaxSize_effect_witness :
  let b0 := mkRingBufferOf (T := Z) (W := list Z) [1; 2; 3; 4; 0; 0; 0] 7 7 0 0 0 4 None in
  wf b0 /\ is_int 2 /\
  exists b', SetMaxSize 0 2 b0 = Ok (2, b') /\ PeekAll b' = Ok [3; 4] /\ Len b' = 2.
Proof.
  intros b0.
  assert (Hwf : wf b0) by wf_concrete.
  assert (Hn : is_int 2) by (unfold is_int, int_min, int_max; lia).
  split; [exact Hwf |]. split; [exact Hn |].
  destruct (SetMaxSize_effect 0 2 b0 Hwf Hn)
    as (b' & l & Hl & Hs & Hm & _ & _ & _ & _ & _ & Hcut).
  vm_compute in Hl. injection Hl as <-.
  destruct Hcut as [Hp HL].
  - zcmp.
  - left. zcmp.
  - exists b'. rewrite Hm in Hs. repeat split; assumption.
Defined.

Lemma bounded_capacity_witness :
  let b0 := mkRingBufferOf (T := Z) (W := list Z) [7; 0] 2 2 2 0 0 1 None in
  wf b0 /\
  forall b' ω', Write 0 9 b0 [] = Ok (b', ω') ->
    Capacity b' = Capacity b0 \/
    (Capacity b0 <= MaxSize b0 /\ Capacity b0 < Capacity b' <= 2 * MaxSize b0).
Proof.
  intros b0.
  assert (Hwf : wf b0) by wf_concrete.
  split; [exact Hwf |].
  destruct (bounded_capacity 0 9 b0 [] Hwf) as (Hw & _).
  - zcmp.
  - zcmp.
  - exact Hw.
Defined.
